(** * dev-events: the event-by-slug endpoint and the mongoose connection memoizer

    Shallow embedding of
    - [src/app/api/events/[slug]/route.ts]  (the [GET] handler), and
    - the connection module ([connectDB], imported by the route as
      [@/lib/mongoose]),
    followed by the properties the specification states about them.

    JavaScript strings are sequences of UTF-16 code units; they are modelled
    as [list N].  The run-to-completion discipline of the JavaScript event
    loop is modelled by splitting every [async] function at its [await]s
    into synchronous segments, each of which is one atomic state
    transformer. *)

From Stdlib Require Import NArith ZArith Ascii String.
From stdpp Require Import base list.

(* ===================================================================== *)
(** ** JavaScript strings *)
(* ===================================================================== *)

Module JsString.

Local Open Scope N_scope.

(** A string value: its UTF-16 code units. *)
Definition jsstring := list N.

(** The code units of an ASCII literal. *)
Fixpoint lit (s : string) : jsstring :=
  match s with
  | EmptyString => []
  | String a s' => N_of_ascii a :: lit s'
  end.

(** Strict equality [===] on two strings. *)
Fixpoint eqb (s t : jsstring) : bool :=
  match s, t with
  | [], [] => true
  | c :: s', d :: t' => (c =? d) && eqb s' t'
  | _, _ => false
  end.

(** ECMAScript [WhiteSpace] and [LineTerminator] code units, the ones
    [String.prototype.trim] strips: TAB, LF, VT, FF, CR, SP, NBSP,
    U+1680, U+2000..U+200A, U+2028, U+2029, U+202F, U+205F, U+3000 and
    U+FEFF. *)
Definition is_white_space (c : N) : bool :=
  ((9 <=? c) && (c <=? 13))
  || (c =? 32) || (c =? 160) || (c =? 5760)
  || ((8192 <=? c) && (c <=? 8202))
  || (c =? 8232) || (c =? 8233) || (c =? 8239) || (c =? 8287)
  || (c =? 12288) || (c =? 65279).

Fixpoint trim_start (s : jsstring) : jsstring :=
  match s with
  | c :: s' => if is_white_space c then trim_start s' else s
  | [] => []
  end.

Definition trim_end (s : jsstring) : jsstring :=
  rev (trim_start (rev s)).

(** [s.trim()] *)
Definition trim (s : jsstring) : jsstring := trim_end (trim_start s).

(** Every code unit of [s] is white space. *)
Definition blank (s : jsstring) : bool := forallb is_white_space s.

End JsString.
Import JsString.

(* ===================================================================== *)
(** ** Regular expressions without flags *)
(* ===================================================================== *)

Module RegExp.

Local Open Scope N_scope.

(** The fragment of the pattern language the route uses: character
    classes given by ranges, concatenation, and the quantifiers [*] and
    [+].  [Void] and [Alt] only arise as derivatives. *)
Inductive regex : Type :=
| Void
| Eps
| Class (ranges : list (N * N))
| Cat (r1 r2 : regex)
| Alt (r1 r2 : regex)
| Star (r : regex).

(** [r+] *)
Definition Plus (r : regex) : regex := Cat r (Star r).

Definition in_class (c : N) (ranges : list (N * N)) : bool :=
  existsb (fun lh => (fst lh <=? c) && (c <=? snd lh)) ranges.

(** The language of a pattern. *)
Inductive matches : regex -> jsstring -> Prop :=
| MEps : matches Eps []
| MClass c ranges : in_class c ranges = true -> matches (Class ranges) [c]
| MCat r1 r2 s1 s2 :
    matches r1 s1 -> matches r2 s2 -> matches (Cat r1 r2) (s1 ++ s2)
| MAltL r1 r2 s : matches r1 s -> matches (Alt r1 r2) s
| MAltR r1 r2 s : matches r2 s -> matches (Alt r1 r2) s
| MStarNil r : matches (Star r) []
| MStarApp r s1 s2 :
    matches r s1 -> matches (Star r) s2 -> matches (Star r) (s1 ++ s2).

Fixpoint nullable (r : regex) : bool :=
  match r with
  | Void => false
  | Eps => true
  | Class _ => false
  | Cat r1 r2 => nullable r1 && nullable r2
  | Alt r1 r2 => nullable r1 || nullable r2
  | Star _ => true
  end.

(** Brzozowski derivative of [r] by the code unit [c]. *)
Fixpoint deriv (c : N) (r : regex) : regex :=
  match r with
  | Void => Void
  | Eps => Void
  | Class ranges => if in_class c ranges then Eps else Void
  | Cat r1 r2 =>
      if nullable r1
      then Alt (Cat (deriv c r1) r2) (deriv c r2)
      else Cat (deriv c r1) r2
  | Alt r1 r2 => Alt (deriv c r1) (deriv c r2)
  | Star r1 => Cat (deriv c r1) (Star r1)
  end.

(** [/^r$/.test(s)]: the whole of [s] is in the language of [r]. *)
Fixpoint test (r : regex) (s : jsstring) : bool :=
  match s with
  | [] => nullable r
  | c :: s' => test (deriv c r) s'
  end.

End RegExp.
Import RegExp.

(** [[a-z0-9]]: 'a' = 97, 'z' = 122, '0' = 48, '9' = 57. *)
Definition lower_alnum : regex := Class [(97, 122); (48, 57)]%N.

(** [-] = 45 *)
Definition hyphen : regex := Class [(45, 45)]%N.

(** [const slugPattern = /^[a-z0-9]+(?:-[a-z0-9]+)*$/] *)
Definition slugPattern : regex :=
  Cat (Plus lower_alnum) (Star (Cat hyphen (Plus lower_alnum))).

(* ===================================================================== *)
(** ** Values, exceptions and completions *)
(* ===================================================================== *)

(** The values a route parameter can hold at run time.  The declared type
    of [params.slug] is [string], and the handler defends against anything
    else; numbers are restricted to integers because only their truthiness
    and their [typeof] are ever observed. *)
Inductive JsValue : Type :=
| JUndefined
| JNull
| JBool (b : bool)
| JNumber (n : Z)
| JString (s : jsstring)
| JObject.

(** ToBoolean *)
Definition truthy (v : JsValue) : bool :=
  match v with
  | JUndefined | JNull => false
  | JBool b => b
  | JNumber n => negb (n =? 0)%Z
  | JString s => negb (JsString.eqb s [])
  | JObject => true
  end.

Definition typeof (v : JsValue) : string :=
  match v with
  | JUndefined => "undefined"%string
  | JNull => "object"%string
  | JBool _ => "boolean"%string
  | JNumber _ => "number"%string
  | JString _ => "string"%string
  | JObject => "object"%string
  end.

(** A thrown [Error] object, identified by its message. *)
Inductive Exn : Type := JsError (message : string).

(** How an evaluation (or a settled promise) ends. *)
Inductive Completion (A : Type) : Type :=
| Normal (a : A)
| Throw (e : Exn).
Arguments Normal {A} a.
Arguments Throw {A} e.

(** Where an [async] function stands after one synchronous segment: it
    has completed, or it is suspended at an [await] on promise [pid]. *)
Inductive Segment (A : Type) : Type :=
| Done (c : Completion A)
| Await (pid : nat).
Arguments Done {A} c.
Arguments Await {A} pid.

(** [process.env.X]: a string, or [undefined] when unset.  Truthiness of
    such a value. *)
Definition env_truthy (v : option string) : bool :=
  match v with
  | Some s => negb (String.eqb s EmptyString)
  | None => false
  end.

Section Program.

(** The connected [mongoose] instance a successful connection yields, and
    the [Event] documents of [@/database]; the handler looks at a
    document only through its [slug] field. *)
Variable Handle : Type.
Variable Doc : Type.
Variable doc_slug : Doc -> jsstring.

(* =================================================================== *)
(** ** The connection module *)
(* =================================================================== *)

(** [interface MongooseCache]; a promise is referred to by the index of
    the [mongoose.connect] call that created it, so that every holder of
    [cached.promise] shares one and the same promise. *)
Record MongooseCache : Type := {
  conn : option Handle;
  promise : option nat
}.

(** Arguments of one [mongoose.connect(uri, options)] call. *)
Record ConnectCall : Type := {
  connect_uri : string;
  bufferCommands : bool
}.

(** What a route handler asked of its collaborators. *)
Inductive HandlerCall : Type :=
| CallConnectDB
| CallFindOne (slug : jsstring)
| CallConsoleError (e : Exn).

(** The state of the server process: the one cache object that both
    [global.mongoose] and the module constant [cached] refer to, the
    connection attempts started so far (attempt [k] created promise
    [k]), and the collaborator calls made by handlers. *)
Record Process : Type := {
  cached : MongooseCache;
  connects : list ConnectCall;
  calls : list HandlerCall
}.

Definition set_cached (c : MongooseCache) (p : Process) : Process :=
  {| cached := c; connects := connects p; calls := calls p |}.

Definition log_call (c : HandlerCall) (p : Process) : Process :=
  {| cached := cached p; connects := connects p; calls := calls p ++ [c] |}.

(** [{ conn: null, promise: null }] *)
Definition empty_cache : MongooseCache := {| conn := None; promise := None |}.

Definition config_error : Exn :=
  JsError "Please define the MONGODB_URI environment variable inside .env"%string.

(** What evaluating the module leaves behind: the constant
    [MONGODB_URI] and the cache object. *)
Record Loaded : Type := {
  MONGODB_URI : option string;
  global_mongoose : MongooseCache
}.

(** Top-level statements of the module, lines 16-34: read the variable,
    throw if it is falsy, then reuse [global.mongoose] or install a
    fresh cache there. *)
Definition load_module (env_MONGODB_URI : option string)
    (global : option MongooseCache) : Completion Loaded :=
  if negb (env_truthy env_MONGODB_URI) then Throw config_error
  else
    Normal {| MONGODB_URI := env_MONGODB_URI;
              global_mongoose :=
                match global with Some c => c | None => empty_cache end |}.

(** The process right after the module was evaluated with no
    [global.mongoose] present. *)
Definition cold : Process :=
  {| cached := empty_cache; connects := []; calls := [] |}.

(** [connectDB], from its call to the [await] of line 68. *)
Definition connectDB_start (uri : option string) (p : Process)
    : Process * Segment Handle :=
  match conn (cached p) with
  | Some h => (p, Done (Normal h))
  | None =>
      match promise (cached p) with
      | Some pid => (p, Await pid)
      | None =>
          match uri with
          | Some u =>
              if negb (env_truthy uri) then (p, Done (Throw config_error))
              else
                let pid := length (connects p) in
                ({| cached := {| conn := None; promise := Some pid |};
                    connects := connects p
                      ++ [{| connect_uri := u; bufferCommands := false |}];
                    calls := calls p |},
                 Await pid)
          | None => (p, Done (Throw config_error))
          end
      end
  end.

(** [connectDB], resumed once the awaited promise has settled with
    [outcome]: lines 68-75. *)
Definition connectDB_resume (outcome : Completion Handle) (p : Process)
    : Process * Completion Handle :=
  match outcome with
  | Normal h =>
      (set_cached {| conn := Some h; promise := promise (cached p) |} p,
       Normal h)
  | Throw e =>
      (set_cached {| conn := conn (cached p); promise := None |} p,
       Throw e)
  end.

(* =================================================================== *)
(** ** Collaborators *)
(* =================================================================== *)

(** The world outside the process: how the [k]-th connection attempt
    settles, whether a query for a slug fails, the [Event] collection,
    and what [JSON.stringify] throws on a document, if it throws (as it
    does on a [BigInt] field).  Every attempt and every query settles:
    the driver's own timeouts turn a hung operation into a rejection. *)
Record Backend : Type := {
  connect_outcome : nat -> Completion Handle;
  query_fault : jsstring -> option Exn;
  store : list Doc;
  stringify_fault : Doc -> option Exn
}.

(** [Event.findOne({ slug }).lean()], awaited: the document whose [slug]
    equals the argument, or [null]. *)
Definition Event_findOne (B : Backend) (slug : jsstring)
    : Completion (option Doc) :=
  match query_fault B slug with
  | Some e => Throw e
  | None => Normal (find (fun d => JsString.eqb (doc_slug d) slug) (store B))
  end.

(* =================================================================== *)
(** ** A small state-and-exception monad for handlers *)
(* =================================================================== *)

Definition M (A : Type) : Type := Process -> Process * Completion A.

Definition ret {A} (a : A) : M A := fun p => (p, Normal a).

Definition bind {A B} (m : M A) (k : A -> M B) : M B :=
  fun p =>
    match m p with
    | (p', Normal a) => k a p'
    | (p', Throw e) => (p', Throw e)
    end.

Definition tell (c : HandlerCall) : M unit :=
  fun p => (log_call c p, Normal tt).

(** Lift a computation that does not touch the process state. *)
Definition lift {A} (c : Completion A) : M A := fun p => (p, c).

(** [try { body } catch (error) { handler }] for a handler that itself
    completes normally. *)
Definition try_catch {A} (body : M A) (handler : Exn -> Process -> Process * A)
    : Process -> Process * A :=
  fun p =>
    match body p with
    | (p', Normal a) => (p', a)
    | (p', Throw e) => handler e p'
    end.

Notation "x <- m ;; k" := (bind m (fun x => k))
  (at level 100, m at next level, right associativity).
Notation "m ;;; k" := (bind m (fun _ => k))
  (at level 100, right associativity).

(** [await connectDB()] inside one request: the synchronous segment, and
    when it suspends, the resumption with the way the awaited attempt
    settles. *)
Definition await_connectDB (B : Backend) (uri : option string) : M Handle :=
  fun p =>
    match connectDB_start uri p with
    | (p1, Done c) => (p1, c)
    | (p1, Await pid) => connectDB_resume (connect_outcome B pid) p1
    end.

(* =================================================================== *)
(** ** The route handler *)
(* =================================================================== *)

(** The object handed to [NextResponse.json]. *)
Record Body : Type := {
  success : bool;
  event : option Doc;
  error : option string
}.

Record Response : Type := {
  body : Body;
  status : N
}.

(** The response that carries body [b] with status [st]. *)
Definition json_response (b : Body) (st : N) : Response :=
  {| body := b; status := st |}.

(** [NextResponse.json(body, { status })]: the body is serialised with
    [JSON.stringify] on the spot, so the call throws what
    [JSON.stringify] throws.  Booleans and strings are always encoded; a
    document may not be. *)
Definition NextResponse_json (B : Backend) (b : Body) (st : N)
    : Completion Response :=
  match event b with
  | Some d =>
      match stringify_fault B d with
      | Some e => Throw e
      | None => Normal (json_response b st)
      end
  | None => Normal (json_response b st)
  end.

Definition failure (msg : string) : Body :=
  {| success := false; event := None; error := Some msg |}.

Definition missing_message : string :=
  "Invalid or missing slug parameter"%string.

Definition malformed_message : string :=
  "Invalid slug format. Slug must be lowercase alphanumeric with hyphens."%string.

Definition not_found_message : string := "Event not found"%string.

Definition unexpected_message : string :=
  "An unexpected error occurred while fetching the event"%string.

(** The four error responses and the success response. *)
Definition bad_request (msg : string) : Response :=
  json_response (failure msg) 400.

Definition not_found : Response :=
  json_response (failure not_found_message) 404.

Definition server_error : Response :=
  json_response (failure unexpected_message) 500.

Definition ok (d : Doc) : Response :=
  json_response {| success := true; event := Some d; error := None |} 200.

(** Line 29: [!slug || typeof slug !== "string" || slug.trim() === ""].
    The last disjunct is only evaluated when the first two are false,
    that is on a string. *)
Definition slug_missing (slug : JsValue) : bool :=
  negb (truthy slug)
  || negb (String.eqb (typeof slug) "string"%string)
  || match slug with
     | JString s => JsString.eqb (trim s) []
     | _ => false
     end.

(** Lines 25-76, the body of the [try] block. *)
Definition GET_try (B : Backend) (uri : option string) (slug : JsValue)
    : M Response :=
  if slug_missing slug then
    lift (NextResponse_json B (failure missing_message) 400)
  else
    match slug with
    | JString s =>
        if negb (test slugPattern s) then
          lift (NextResponse_json B (failure malformed_message) 400)
        else
          tell CallConnectDB ;;;
          _ <- await_connectDB B uri ;;
          tell (CallFindOne s) ;;;
          event <- lift (Event_findOne B s) ;;
          match event with
          | None => lift (NextResponse_json B (failure not_found_message) 404)
          | Some d =>
              lift (NextResponse_json B
                      {| success := true; event := Some d; error := None |}
                      200)
          end
    | _ =>
        (* not reached: [slug_missing] holds of every non-string *)
        lift (NextResponse_json B (failure missing_message) 400)
    end.

(** [export async function GET(request, { params })], with [slug] the
    value of [(await params).slug] and [uri] the module constant
    [MONGODB_URI].  The body the [catch] block hands to
    [NextResponse.json] holds a boolean and a string only, so that call
    completes and yields [server_error]. *)
Definition GET (B : Backend) (uri : option string) (slug : JsValue)
    : Process -> Process * Response :=
  try_catch (GET_try B uri slug)
    (fun e p =>
       (log_call (CallConsoleError e) p, server_error)).

(* =================================================================== *)
(** ** Concurrent callers of [connectDB] *)
(* =================================================================== *)

(** A caller of [connectDB] is suspended at the [await], or has its
    result. *)
Inductive Task : Type :=
| Waiting (pid : nat)
| Finished (c : Completion Handle).

(** The process together with the promises that have settled and the
    callers of [connectDB], in order of arrival. *)
Record Machine : Type := {
  proc : Process;
  settled : list nat;
  tasks : list Task
}.

(** What the event loop can run next: a new caller's synchronous
    segment, the driver settling an attempt, or the continuation of a
    suspended caller.  Continuations may run in any order here; the
    first-in-first-out order of the microtask queue is one of them. *)
Inductive Event : Type :=
| Call
| Settle (pid : nat)
| Resume (tid : nat).

Definition is_settled (pid : nat) (m : Machine) : bool :=
  existsb (Nat.eqb pid) (settled m).

(** One turn of the event loop; [None] when the event cannot happen. *)
Definition step (B : Backend) (uri : option string) (ev : Event)
    (m : Machine) : option Machine :=
  match ev with
  | Call =>
      let '(p', seg) := connectDB_start uri (proc m) in
      Some {| proc := p'; settled := settled m;
              tasks := tasks m ++
                [match seg with
                 | Done c => Finished c
                 | Await pid => Waiting pid
                 end] |}
  | Settle pid =>
      if Nat.ltb pid (length (connects (proc m))) && negb (is_settled pid m)
      then Some {| proc := proc m; settled := pid :: settled m;
                   tasks := tasks m |}
      else None
  | Resume tid =>
      match tasks m !! tid with
      | Some (Waiting pid) =>
          if is_settled pid m then
            let '(p', c) :=
              connectDB_resume (connect_outcome B pid) (proc m) in
            Some {| proc := p'; settled := settled m;
                    tasks := <[tid := Finished c]> (tasks m) |}
          else None
      | _ => None
      end
  end.

Fixpoint run (B : Backend) (uri : option string) (evs : list Event)
    (m : Machine) : option Machine :=
  match evs with
  | [] => Some m
  | ev :: evs' =>
      match step B uri ev m with
      | Some m' => run B uri evs' m'
      | None => None
      end
  end.

Definition machine_of (p : Process) : Machine :=
  {| proc := p; settled := []; tasks := [] |}.

Definition is_call (ev : Event) : bool :=
  match ev with Call => true | _ => false end.

(** What is to hold as long as no further caller arrives: one attempt
    was started, and every caller waits for it or has its outcome. *)
Definition single_attempt (B : Backend) (m : Machine) : Prop :=
  length (connects (proc m)) = 1%nat /\
  Forall (fun t => t = Waiting 0 \/ t = Finished (connect_outcome B 0))
    (tasks m).

End Program.

Arguments conn {Handle} _.
Arguments promise {Handle} _.
Arguments empty_cache {Handle}.
Arguments cached {Handle} _.
Arguments connects {Handle} _.
Arguments calls {Handle} _.
Arguments cold {Handle}.
Arguments proc {Handle} _.
Arguments settled {Handle} _.
Arguments tasks {Handle} _.
Arguments Waiting {Handle} pid.
Arguments Finished {Handle} c.
Arguments connect_outcome {Handle Doc} _ _.
Arguments query_fault {Handle Doc} _ _.
Arguments store {Handle Doc} _.
Arguments stringify_fault {Handle Doc} _ _.
Arguments json_response {Doc} b st.
Arguments NextResponse_json {Handle Doc} B b st.
Arguments body {Doc} _.
Arguments status {Doc} _.
Arguments success {Doc} _.
Arguments event {Doc} _.
Arguments error {Doc} _.
Arguments failure {Doc} msg.
Arguments bad_request {Doc} msg.
Arguments not_found {Doc}.
Arguments server_error {Doc}.
Arguments ok {Doc} d.
Arguments set_cached {Handle} c p.
Arguments log_call {Handle} c p.
Arguments load_module {Handle} env_MONGODB_URI global.
Arguments connectDB_start {Handle} uri p.
Arguments connectDB_resume {Handle} outcome p.
Arguments Event_findOne {Handle Doc} doc_slug B slug.
Arguments await_connectDB {Handle Doc} B uri _.
Arguments GET_try {Handle Doc} doc_slug B uri slug _.
Arguments GET {Handle Doc} doc_slug B uri slug _.
Arguments is_settled {Handle} pid m.
Arguments step {Handle Doc} B uri ev m.
Arguments run {Handle Doc} B uri evs m.
Arguments machine_of {Handle} p.
Arguments single_attempt {Handle Doc} B m.

Arguments MONGODB_URI {Handle} _.
Arguments global_mongoose {Handle} _.

(** The process right after the module was evaluated. *)
Definition boot {Handle} (L : Loaded Handle) : Process Handle :=
  {| cached := global_mongoose L; connects := []; calls := [] |}.

(* ===================================================================== *)
(** ** Notions used to state further properties *)
(* ===================================================================== *)

(** Membership in [[a-z0-9]]. *)
Definition is_lower_alnum (c : N) : bool :=
  in_class c [(97, 122); (48, 57)]%N.

(** A non-empty run of lowercase letters and digits. *)
Definition segment (seg : jsstring) : Prop :=
  seg <> [] /\ Forall (fun c => is_lower_alnum c = true) seg.

(** [[seg, ...segs].join("-")] *)
Definition join_segments (seg : jsstring) (segs : list jsstring) : jsstring :=
  seg ++ concat (map (fun t => 45%N :: t) segs).

(** A one-pass recogniser: [after_alnum] tells whether the code unit just
    read was a letter or a digit.  It is shown below to accept the
    language of [slugPattern]. *)
Fixpoint slug_scan (after_alnum : bool) (s : jsstring) : bool :=
  match s with
  | [] => after_alnum
  | c :: s' =>
      if is_lower_alnum c then slug_scan true s'
      else if (c =? 45)%N then after_alnum && slug_scan false s'
      else false
  end.

(** Requests handled one after the other, each to completion, by the
    same process. *)
Fixpoint serve {Handle Doc : Type} (doc_slug : Doc -> jsstring)
    (B : Backend Handle Doc) (uri : option string) (slugs : list JsValue)
    (p : Process Handle) : Process Handle * list (Response Doc) :=
  match slugs with
  | [] => (p, [])
  | v :: slugs' =>
      let '(p1, r) := GET doc_slug B uri v p in
      let '(p2, rs) := serve doc_slug B uri slugs' p1 in
      (p2, r :: rs)
  end.

(** The number of responses with status 500. *)
Definition server_errors {Doc : Type} (rs : list (Response Doc)) : nat :=
  length (filter (fun r => status r = 500%N) rs).

(** [{ conn: null, promise: null }], as a test. *)
Definition cache_is_empty {Handle : Type} (c : MongooseCache Handle) : bool :=
  match conn c, promise c with
  | None, None => true
  | _, _ => false
  end.

(** A result handed to a caller is the outcome of an attempt that has
    settled. *)
Definition from_settled {Handle Doc : Type} (B : Backend Handle Doc)
    (m : Machine Handle) (c : Completion Handle) : Prop :=
  exists pid, pid ∈ settled m /\ connect_outcome B pid = c.

(** What every state of the event loop satisfies when [connectDB] runs
    with the constant [u]: every attempt was started with [u] and
    [bufferCommands: false]; the promise in the cache, the settled
    promises and the promises callers wait for all belong to attempts
    that were started; the connection in the cache and every result a
    caller has received are outcomes of settled attempts. *)
Definition consistent {Handle Doc : Type} (B : Backend Handle Doc)
    (u : string) (m : Machine Handle) : Prop :=
  Forall (fun c => c = {| connect_uri := u; bufferCommands := false |})
    (connects (proc m)) /\
  (forall pid, promise (cached (proc m)) = Some pid ->
     (pid < length (connects (proc m)))%nat) /\
  (forall h, conn (cached (proc m)) = Some h -> from_settled B m (Normal h)) /\
  Forall (fun pid => (pid < length (connects (proc m)))%nat) (settled m) /\
  Forall (fun t => match t with
                   | Waiting pid => (pid < length (connects (proc m)))%nat
                   | Finished c => from_settled B m c
                   end) (tasks m).

(* ===================================================================== *)
(** ** Sample data *)
(* ===================================================================== *)

Module Sample.

Record EventDoc : Type := {
  slug : jsstring;
  title : string
}.

Definition summer_fest : EventDoc :=
  {| slug := lit "summer-fest-2024"; title := "Summer Fest"%string |}.

Definition react_conf : EventDoc :=
  {| slug := lit "react-conf"; title := "React Conf"%string |}.

Definition events : list EventDoc := [summer_fest; react_conf].

Definition uri : string := "mongodb://localhost:27017/dev-events"%string.

(** Connection handles are numbered by the attempt that produced them. *)
Definition healthy : Backend nat EventDoc :=
  {| connect_outcome := fun k => Normal k;
     query_fault := fun _ => None;
     store := events;
     stringify_fault := fun _ => None |}.

Definition refused : Exn := JsError "connect ECONNREFUSED 127.0.0.1:27017"%string.

(** The database cannot be reached. *)
Definition unreachable : Backend nat EventDoc :=
  {| connect_outcome := fun _ => Throw refused;
     query_fault := fun _ => None;
     store := events;
     stringify_fault := fun _ => None |}.

Definition timed_out : Exn :=
  JsError "Operation events.findOne() buffering timed out"%string.

(** The connection succeeds, every query fails. *)
Definition failing_queries : Backend nat EventDoc :=
  {| connect_outcome := fun k => Normal k;
     query_fault := fun _ => Some timed_out;
     store := events;
     stringify_fault := fun _ => None |}.


Definition not_encodable : Exn :=
  JsError "Do not know how to serialize a BigInt"%string.

(** The database is fine, but the document of React Conf holds a value
    that [JSON.stringify] cannot encode. *)
Definition unencodable : Backend nat EventDoc :=
  {| connect_outcome := fun k => Normal k;
     query_fault := fun _ => None;
     store := events;
     stringify_fault :=
       fun d => if JsString.eqb (slug d) (lit "react-conf")
                then Some not_encodable else None |}.

(** The handler over this collection, and the loaded constant. *)
Definition get := GET (Handle := nat) slug.

Definition config : option string := Some uri.

End Sample.

(* ===================================================================== *)
(** ** Correctness of the matcher *)
(* ===================================================================== *)

Section MatcherCorrect.

Lemma nullable_matches r : nullable r = true <-> matches r [].
Proof.
  induction r; simpl.
  - split; [discriminate | inversion 1].
  - split; [constructor | reflexivity].
  - split; [discriminate | inversion 1].
  - rewrite andb_true_iff, IHr1, IHr2. split.
    + intros [H1 H2]. exact (MCat _ _ [] [] H1 H2).
    + inversion 1 as [| |? ? u1 u2 H1 H2 E1 E2| | | |]; subst.
      apply app_eq_nil in E2 as [-> ->]. auto.
  - rewrite orb_true_iff, IHr1, IHr2. split.
    + intros [H|H]; [apply MAltL | apply MAltR]; exact H.
    + inversion 1; subst; auto.
  - split; [constructor | reflexivity].
Qed.

(** A non-empty word of [r*] starts with a non-empty word of [r]. *)
Lemma star_cons_inv r c s :
  matches (Star r) (c :: s) ->
  exists s1 s2, s = s1 ++ s2 /\ matches r (c :: s1) /\ matches (Star r) s2.
Proof.
  intros H. remember (Star r) as r' eqn:Er. remember (c :: s) as w eqn:Ew.
  revert s Ew.
  induction H as [| | | | | |r0 u1 u2 H1 _ H2 IH2]; intros t Et;
    try discriminate.
  injection Er as ->. destruct u1 as [|d u1]; simpl in Et.
  - apply IH2; auto.
  - injection Et as <- <-. exists u1, u2. auto.
Qed.

Lemma deriv_matches r : forall c s,
  matches (deriv c r) s <-> matches r (c :: s).
Proof.
  induction r; intros c s; simpl.
  - split; inversion 1.
  - split; inversion 1.
  - destruct (in_class c ranges) eqn:Hc; split.
    + inversion 1; subst. constructor; exact Hc.
    + inversion 1; subst. constructor.
    + inversion 1.
    + inversion 1; subst. congruence.
  - assert (Hcat : matches (Cat (deriv c r1) r2) s ->
                   matches (Cat r1 r2) (c :: s)).
    { inversion 1 as [| |? ? u1 u2 H1 H2| | | |]; subst.
      apply IHr1 in H1. exact (MCat _ _ (c :: u1) u2 H1 H2). }
    assert (Hinv : matches (Cat r1 r2) (c :: s) ->
                   matches (Cat (deriv c r1) r2) s \/
                   (matches r1 [] /\ matches (deriv c r2) s)).
    { inversion 1 as [| |? ? u1 u2 H1 H2 E1 E2| | | |]; subst.
      destruct u1 as [|d u1]; simpl in E2.
      - subst u2. right. split; [exact H1 | apply IHr2; exact H2].
      - injection E2 as <- <-. left. constructor; [apply IHr1|]; auto. }
    destruct (nullable r1) eqn:Hn; split.
    + inversion 1; subst; [auto |].
      apply nullable_matches in Hn.
      match goal with H : matches (deriv c r2) s |- _ => apply IHr2 in H;
        exact (MCat _ _ [] (c :: s) Hn H) end.
    + intros H. apply Hinv in H as [H | [_ H]];
        [apply MAltL | apply MAltR]; exact H.
    + exact Hcat.
    + intros H. apply Hinv in H as [H | [H _]]; [exact H |].
      apply nullable_matches in H. congruence.
  - split.
    + inversion 1; subst; [apply MAltL; apply IHr1 | apply MAltR; apply IHr2];
        assumption.
    + inversion 1; subst; [apply MAltL; apply IHr1 | apply MAltR; apply IHr2];
        assumption.
  - split.
    + inversion 1 as [| |? ? u1 u2 H1 H2| | | |]; subst.
      apply IHr in H1. exact (MStarApp _ (c :: u1) u2 H1 H2).
    + intros H. apply star_cons_inv in H as (s1 & s2 & -> & H1 & H2).
      constructor; [apply IHr|]; assumption.
Qed.

(** The executable matcher decides the language of the pattern. *)
Lemma test_matches s : forall r, test r s = true <-> matches r s.
Proof.
  induction s as [|c s IH]; intros r; simpl.
  - apply nullable_matches.
  - rewrite IH. apply deriv_matches.
Qed.

End MatcherCorrect.

(* ===================================================================== *)
(** ** Strings and the slug pattern *)
(* ===================================================================== *)

Section Strings.

Lemma jsstring_eqb_eq (s t : jsstring) : JsString.eqb s t = true <-> s = t.
Proof.
  revert t. induction s as [|c s IH]; intros [|d t]; simpl;
    try (split; [discriminate | discriminate]); [tauto |].
  rewrite andb_true_iff, N.eqb_eq, IH. split.
  - intros [-> ->]. reflexivity.
  - intros E. injection E as -> ->. auto.
Qed.

Lemma jsstring_eqb_nil (s : jsstring) :
  JsString.eqb s [] = true <-> s = [].
Proof. apply jsstring_eqb_eq. Qed.

Lemma trim_start_nil (s : jsstring) : trim_start s = [] <-> blank s = true.
Proof.
  induction s as [|c s IH]; simpl; [tauto |].
  destruct (is_white_space c); simpl; [exact IH |].
  split; discriminate.
Qed.

Lemma blank_app (s t : jsstring) :
  blank (s ++ t) = blank s && blank t.
Proof. apply forallb_app. Qed.

Lemma blank_rev (s : jsstring) : blank (rev s) = blank s.
Proof.
  induction s as [|c s IH]; simpl; [reflexivity |].
  rewrite blank_app, IH. simpl. rewrite andb_true_r. apply andb_comm.
Qed.

(** [trim_start] leaves nothing but white space behind only when it
    leaves nothing. *)
Lemma blank_trim_start (s : jsstring) :
  blank (trim_start s) = true -> trim_start s = [].
Proof.
  induction s as [|c s IH]; simpl; [reflexivity |].
  destruct (is_white_space c) eqn:Hc; [exact IH |].
  simpl. rewrite Hc. discriminate.
Qed.

(** [s.trim() === ""] exactly when [s] consists of white space. *)
Lemma trim_nil (s : jsstring) : trim s = [] <-> blank s = true.
Proof.
  unfold trim, trim_end. split.
  - intros H. apply (f_equal (@rev N)) in H. rewrite rev_involutive in H.
    simpl in H. apply trim_start_nil in H. rewrite blank_rev in H.
    apply trim_start_nil. apply blank_trim_start. exact H.
  - intros H. apply trim_start_nil in H. rewrite H. reflexivity.
Qed.

Lemma lower_alnum_not_white (c : N) :
  in_class c [(97, 122); (48, 57)]%N = true -> is_white_space c = false.
Proof.
  unfold in_class, is_white_space. simpl.
  rewrite orb_false_r, orb_true_iff, !andb_true_iff, !N.leb_le.
  intros H.
  repeat match goal with
         | |- context [(?a =? c)%N] => fail 1
         | |- context [(c =? ?a)%N] =>
             replace (c =? a)%N with false by (symmetry; apply N.eqb_neq; lia)
         end.
  replace (c <=? 13)%N with false by (symmetry; apply N.leb_gt; lia).
  replace (8192 <=? c)%N with false by (symmetry; apply N.leb_gt; lia).
  rewrite andb_false_r. reflexivity.
Qed.

(** A slug begins with a lowercase letter or a digit. *)
Lemma slug_head (s : jsstring) :
  matches slugPattern s ->
  exists c s', s = c :: s' /\ in_class c [(97, 122); (48, 57)]%N = true.
Proof.
  unfold slugPattern, Plus, lower_alnum.
  inversion 1 as [| |? ? u1 u2 H1 _| | | |]; subst.
  inversion H1 as [| |? ? v1 v2 H2 _| | | |]; subst.
  inversion H2; subst. simpl. eauto.
Qed.

Lemma slug_not_blank (s : jsstring) :
  matches slugPattern s -> blank s = false.
Proof.
  intros H. apply slug_head in H as (c & s' & -> & Hc).
  simpl. rewrite (lower_alnum_not_white c Hc). reflexivity.
Qed.

End Strings.

(* ===================================================================== *)
(** ** The route handler *)
(* ===================================================================== *)

Section Handler.

Context {Handle Doc : Type}.
Variable doc_slug : Doc -> jsstring.

Implicit Types (B : Backend Handle Doc) (p : Process Handle).
Implicit Types (s : jsstring) (v : JsValue).

(** A body without a document is always serialised: the four failure
    responses, the one of the [catch] block among them, are never
    replaced by an exception. *)
Lemma NextResponse_json_failure B msg (st : N) :
  NextResponse_json B (failure msg) st
  = Normal (json_response (failure msg) st).
Proof. reflexivity. Qed.

(** Everything that is not a string is rejected by the first guard. *)
Lemma slug_missing_not_string v :
  typeof v <> "string"%string -> slug_missing v = true.
Proof.
  unfold slug_missing.
  destruct v as [| |b|n|s|]; simpl; intros H; try congruence;
    try reflexivity.
  - destruct b; reflexivity.
  - destruct (n =? 0)%Z; reflexivity.
Qed.

Lemma slug_missing_string s :
  slug_missing (JString s) = true <-> blank s = true.
Proof.
  unfold slug_missing. simpl. rewrite orb_false_r, orb_true_iff.
  rewrite negb_true_iff, negb_false_iff, !jsstring_eqb_nil, trim_nil.
  split.
  - intros [-> | H]; [reflexivity | exact H].
  - auto.
Qed.

Lemma slug_missing_of_slug s :
  matches slugPattern s -> slug_missing (JString s) = false.
Proof.
  intros H. apply slug_not_blank in H.
  destruct (slug_missing (JString s)) eqn:E; [| reflexivity].
  apply slug_missing_string in E. congruence.
Qed.

Lemma GET_missing B uri v p :
  slug_missing v = true ->
  GET doc_slug B uri v p = (p, bad_request missing_message).
Proof.
  intros H. unfold GET, try_catch, GET_try.
  rewrite H. reflexivity.
Qed.

Lemma GET_malformed B uri s p :
  slug_missing (JString s) = false -> test slugPattern s = false ->
  GET doc_slug B uri (JString s) p = (p, bad_request malformed_message).
Proof.
  intros H1 H2. unfold GET, try_catch, GET_try.
  rewrite H1, H2. reflexivity.
Qed.

(** What the handler does with a well-formed slug, in terms of its two
    collaborators. *)
Lemma GET_valid B uri s p :
  matches slugPattern s ->
  GET doc_slug B uri (JString s) p =
    match await_connectDB B uri (log_call CallConnectDB p) with
    | (p1, Throw e) => (log_call (CallConsoleError e) p1, server_error)
    | (p1, Normal _) =>
        match Event_findOne doc_slug B s with
        | Throw e =>
            (log_call (CallConsoleError e) (log_call (CallFindOne s) p1),
             server_error)
        | Normal None => (log_call (CallFindOne s) p1, not_found)
        | Normal (Some d) =>
            match stringify_fault B d with
            | Some e =>
                (log_call (CallConsoleError e)
                   (log_call (CallFindOne s) p1),
                 server_error)
            | None => (log_call (CallFindOne s) p1, ok d)
            end
        end
    end.
Proof.
  intros H. unfold GET, try_catch, GET_try.
  rewrite (slug_missing_of_slug s H).
  apply test_matches in H. rewrite H. simpl.
  unfold bind, tell, lift, ret.
  destruct (await_connectDB B uri (log_call CallConnectDB p)) as [p1 [h|e]];
    [| reflexivity].
  destruct (Event_findOne doc_slug B s) as [[d|]|e]; try reflexivity.
  unfold NextResponse_json. simpl.
  destruct (stringify_fault B d); reflexivity.
Qed.

(** In a collection with unique slugs, the lookup yields the document
    that carries the slug. *)
Lemma find_unique_slug (docs : list Doc) (d : Doc) :
  In d docs -> NoDup (map doc_slug docs) ->
  find (fun x => JsString.eqb (doc_slug x) (doc_slug d)) docs = Some d.
Proof.
  induction docs as [|x docs IH]; simpl; [tauto |].
  intros [-> | Hin] Hnd.
  - rewrite (proj2 (jsstring_eqb_eq _ _) eq_refl). reflexivity.
  - apply NoDup_cons in Hnd as [Hx Hnd].
    destruct (JsString.eqb (doc_slug x) (doc_slug d)) eqn:E.
    + apply jsstring_eqb_eq in E. exfalso. apply Hx. rewrite E.
      apply list_elem_of_In, in_map, Hin.
    + apply IH; assumption.
Qed.

Lemma find_no_slug (docs : list Doc) s :
  (forall d, In d docs -> doc_slug d <> s) ->
  find (fun x => JsString.eqb (doc_slug x) s) docs = None.
Proof.
  induction docs as [|x docs IH]; simpl; [reflexivity |].
  intros H. destruct (JsString.eqb (doc_slug x) s) eqn:E.
  - apply jsstring_eqb_eq in E. exfalso. apply (H x); auto.
  - apply IH. intros d Hd. apply H. auto.
Qed.

(** C4.  A string that is not in the language of
    [^[a-z0-9]+(-[a-z0-9]+)*$] is answered with status 400 and a failure
    body, and the process is left exactly as it was: no connection was
    acquired, no attempt started, no query issued.  The five strings the
    specification lists are such strings. *)
Theorem GET_rejects_non_slug B uri s p :
  ~ matches slugPattern s ->
  fst (GET doc_slug B uri (JString s) p) = p /\
  status (snd (GET doc_slug B uri (JString s) p)) = 400%N /\
  success (body (snd (GET doc_slug B uri (JString s) p))) = false /\
  Forall (fun w => ~ matches slugPattern (lit w))
    ["Foo"; "foo_bar"; "-foo"; "foo-"; EmptyString]%string.
Proof.
  intros H.
  assert (Hgen : forall t, ~ matches slugPattern t ->
            test slugPattern t = false).
  { intros t Ht. destruct (test slugPattern t) eqn:E; [| reflexivity].
    apply test_matches in E. contradiction. }
  assert (Hrej : forall t, test slugPattern t = false ->
            ~ matches slugPattern t).
  { intros t Ht Hm. apply test_matches in Hm. congruence. }
  destruct (slug_missing (JString s)) eqn:Hm.
  - rewrite GET_missing by exact Hm. repeat split; try reflexivity.
    repeat constructor; apply Hrej; reflexivity.
  - rewrite GET_malformed by auto. repeat split; try reflexivity.
    repeat constructor; apply Hrej; reflexivity.
Qed.

(** C9.  An absent slug, a slug that is not a string, and a string that
    trims to the empty string are all answered with status 400 and the
    missing-slug message, without touching the process.  That message
    differs from the one for malformed strings, which every string that
    passes the first guard and fails the pattern receives; the empty
    string gets the missing-slug message. *)
Theorem GET_missing_slug B uri v p :
  v = JUndefined \/ typeof v <> "string"%string \/
    (exists s, v = JString s /\ trim s = []) ->
  GET doc_slug B uri v p = (p, bad_request missing_message) /\
  GET doc_slug B uri (JString []) p = (p, bad_request missing_message) /\
  missing_message <> malformed_message /\
  (forall s, trim s <> [] -> ~ matches slugPattern s ->
     GET doc_slug B uri (JString s) p = (p, bad_request malformed_message)).
Proof.
  intros H. split; [| split; [| split]].
  - apply GET_missing.
    destruct H as [-> | [H | (s & -> & H)]]; [reflexivity | |].
    + apply slug_missing_not_string, H.
    + apply slug_missing_string, trim_nil, H.
  - apply GET_missing. reflexivity.
  - discriminate.
  - intros s Hs Hm. apply GET_malformed.
    + destruct (slug_missing (JString s)) eqn:E; [| reflexivity].
      apply slug_missing_string, trim_nil in E. contradiction.
    + destruct (test slugPattern s) eqn:E; [| reflexivity].
      apply test_matches in E. contradiction.
Qed.

(** C3, as amended.  For a slug in the language of the pattern that a
    document of the collection carries (slugs being unique), if the
    connection is acquired, the query does not fail and the document can
    be serialised, the response is 200 with [{ success: true, event }]
    where [event] is that very document. *)
Theorem GET_found B uri s d p p1 h :
  matches slugPattern s ->
  In d (store B) -> doc_slug d = s -> NoDup (map doc_slug (store B)) ->
  await_connectDB B uri (log_call CallConnectDB p) = (p1, Normal h) ->
  query_fault B s = None ->
  stringify_fault B d = None ->
  GET doc_slug B uri (JString s) p =
    (log_call (CallFindOne s) p1,
     {| body := {| success := true; event := Some d; error := None |};
        status := 200 |}).
Proof.
  intros Hm Hin Hs Hnd Hc Hq Hj. rewrite GET_valid by exact Hm.
  rewrite Hc. unfold Event_findOne. rewrite Hq, <- Hs.
  rewrite find_unique_slug by assumption. rewrite Hj. reflexivity.
Qed.

(** C8, as amended.  For a slug in the language of the pattern that no
    document of the collection carries, if the connection is acquired
    and the query does not fail, the response is 404 with
    [{ success: false, error: "Event not found" }]. *)
Theorem GET_not_found B uri s p p1 h :
  matches slugPattern s ->
  (forall d, In d (store B) -> doc_slug d <> s) ->
  await_connectDB B uri (log_call CallConnectDB p) = (p1, Normal h) ->
  query_fault B s = None ->
  GET doc_slug B uri (JString s) p =
    (log_call (CallFindOne s) p1,
     {| body := {| success := false; event := None;
                   error := Some "Event not found"%string |};
        status := 404 |}).
Proof.
  intros Hm Hno Hc Hq. rewrite GET_valid by exact Hm.
  rewrite Hc. unfold Event_findOne. rewrite Hq.
  rewrite find_no_slug by assumption. reflexivity.
Qed.

(** C5.  Whenever the handler gets as far as its collaborators and
    either the acquisition of the connection or the query throws, the
    response is 500 with the one fixed body; the exception appears in
    the server log only. *)
Theorem GET_backend_failure B uri s p e :
  matches slugPattern s ->
  snd (await_connectDB B uri (log_call CallConnectDB p)) = Throw e \/
    (exists h, snd (await_connectDB B uri (log_call CallConnectDB p))
               = Normal h) /\
    Event_findOne doc_slug B s = Throw e ->
  snd (GET doc_slug B uri (JString s) p) =
    {| body := {| success := false; event := None;
                  error := Some
                    "An unexpected error occurred while fetching the event"%string |};
       status := 500 |} /\
  last (calls (fst (GET doc_slug B uri (JString s) p)))
    = Some (CallConsoleError e).
Proof.
  intros Hm H. rewrite GET_valid by exact Hm.
  destruct (await_connectDB B uri (log_call CallConnectDB p))
    as [p1 [h|e1]]; simpl in H.
  - destruct H as [H | [_ H]]; [discriminate |]. rewrite H. simpl.
    split; [reflexivity | apply last_snoc].
  - destruct H as [H | [[h H] _]]; [| discriminate].
    injection H as ->. simpl. split; [reflexivity | apply last_snoc].
Qed.

(** C10.  Whatever the slug and whatever the collaborators do, the
    handler completes with a response: its status is 200, 400, 404 or
    500, and the [success] field of its body is [true] exactly when the
    status is 200. *)
Theorem GET_total B uri v p :
  exists p' r,
    GET doc_slug B uri v p = (p', r) /\
    (status r = 200 \/ status r = 400 \/ status r = 404 \/ status r = 500)%N /\
    (success (body r) = true <-> status r = 200%N).
Proof.
  destruct (slug_missing v) eqn:Hm.
  { rewrite GET_missing by exact Hm. eexists _, _. split; [reflexivity |].
    simpl. split; [auto |]. split; discriminate. }
  destruct v as [| |b|n|s|];
    try (rewrite slug_missing_not_string in Hm by discriminate;
         discriminate).
  destruct (test slugPattern s) eqn:Ht.
  - apply test_matches in Ht. rewrite GET_valid by exact Ht.
    destruct (await_connectDB B uri (log_call CallConnectDB p))
      as [p1 [h|e]].
    + destruct (Event_findOne doc_slug B s) as [[d|]|e];
        [destruct (stringify_fault B d) | |];
        eexists _, _; (split; [reflexivity |]); simpl;
        (split; [auto 6 |]); split; (reflexivity || discriminate).
    + eexists _, _. split; [reflexivity |]. simpl.
      split; [auto 6 |]. split; discriminate.
  - rewrite GET_malformed by assumption.
    eexists _, _. split; [reflexivity |]. simpl.
    split; [auto |]. split; discriminate.
Qed.

End Handler.

(* ===================================================================== *)
(** ** The connection memoizer, one caller at a time *)
(* ===================================================================== *)

Section Memoizer.

Context {Handle Doc : Type}.

Implicit Types (B : Backend Handle Doc) (p : Process Handle).
Implicit Types (o : Completion Handle) (h : Handle).

(** The continuation hands the outcome of the awaited promise to its
    caller, and starts nothing. *)
Lemma connectDB_resume_result o p : snd (connectDB_resume o p) = o.
Proof. destruct o; reflexivity. Qed.

Lemma connectDB_resume_connects o p :
  connects (fst (connectDB_resume o p)) = connects p.
Proof. destruct o; reflexivity. Qed.

Lemma connectDB_resume_twice o p :
  fst (connectDB_resume o (fst (connectDB_resume o p)))
  = fst (connectDB_resume o p).
Proof. destruct o; reflexivity. Qed.

(** A call that suspends found no connection in the cache, and leaves
    the promise it awaits there. *)
Lemma connectDB_start_await uri p p1 pid :
  connectDB_start uri p = (p1, Await pid) ->
  conn (cached p1) = None /\ promise (cached p1) = Some pid /\
  calls p1 = calls p.
Proof.
  unfold connectDB_start.
  destruct (conn (cached p)) as [h|] eqn:Hc; [discriminate |].
  destruct (promise (cached p)) as [q|] eqn:Hp.
  - intros E. injection E as <- <-. auto.
  - destruct uri as [u|]; [| discriminate].
    destruct (negb (env_truthy (Some u))); [discriminate |].
    intros E. injection E as <- <-. auto.
Qed.

Lemma await_connectDB_normal B uri p p1 h :
  await_connectDB B uri p = (p1, Normal h) -> conn (cached p1) = Some h.
Proof.
  unfold await_connectDB.
  destruct (connectDB_start uri p) as [p0 [c|pid]] eqn:Hs.
  - intros E. injection E as <- ->. revert Hs. unfold connectDB_start.
    destruct (conn (cached p)) as [h0|] eqn:Hc.
    + intros E. injection E as <- <-. exact Hc.
    + destruct (promise (cached p)); [discriminate |].
      destruct uri; [| discriminate].
      destruct (negb _); discriminate.
  - destruct (connect_outcome B pid); simpl; intros E; [| discriminate].
    injection E as <- <-. reflexivity.
Qed.

(** C6.  With a connection in the cache, which is the state every
    successful call leaves behind, [connectDB] completes in its first
    synchronous segment with that very handle and an untouched process:
    nothing is awaited and no connection attempt is started. *)
Theorem connectDB_memoized B uri p h :
  conn (cached p) = Some h \/
    (exists B0 uri0 p0, await_connectDB B0 uri0 p0 = (p, Normal h)) ->
  connectDB_start uri p = (p, Done (Normal h)) /\
  await_connectDB B uri p = (p, Normal h).
Proof.
  intros H.
  assert (Hc : conn (cached p) = Some h).
  { destruct H as [H | (B0 & uri0 & p0 & H)]; [exact H |].
    eapply await_connectDB_normal, H. }
  unfold await_connectDB, connectDB_start. rewrite Hc. auto.
Qed.

(** C2.  When the attempt a call awaits is rejected, the call throws the
    rejection, the cache is back to [{ conn: null, promise: null }], no
    further attempt was started by the failing call, and the next call
    starts a fresh one. *)
Theorem connectDB_failure B uri p p1 pid e :
  connectDB_start uri p = (p1, Await pid) ->
  connect_outcome B pid = Throw e ->
  exists p',
    await_connectDB B uri p = (p', Throw e) /\
    cached p' = empty_cache /\
    connects p' = connects p1 /\
    forall u, u <> EmptyString ->
      connectDB_start (Some u) p' =
        ({| cached := {| conn := None;
                         promise := Some (length (connects p')) |};
            connects := connects p' ++
              [{| connect_uri := u; bufferCommands := false |}];
            calls := calls p' |},
         Await (length (connects p'))).
Proof.
  intros Hs Ho. pose proof (connectDB_start_await _ _ _ _ Hs) as (Hc & _ & _).
  unfold await_connectDB. rewrite Hs, Ho. simpl.
  eexists. split; [reflexivity |]. simpl. rewrite Hc.
  split; [reflexivity |]. split; [reflexivity |].
  intros u Hu. unfold connectDB_start. simpl.
  destruct (String.eqb u EmptyString) eqn:E; [| reflexivity].
  apply String.eqb_eq in E. contradiction.
Qed.

(** C7.  With the variable unset (or empty), evaluating the module
    throws; and the guard inside [connectDB] throws the same error from
    a cold cache without starting a connection attempt. *)
Theorem missing_uri_fails B (env : option string)
    (global : option (MongooseCache Handle)) p :
  env_truthy env = false ->
  cached p = empty_cache ->
  load_module env global = Throw config_error /\
  connectDB_start env p = (p, Done (Throw config_error)) /\
  await_connectDB B env p = (p, Throw config_error).
Proof.
  intros He Hp. unfold load_module, await_connectDB, connectDB_start.
  rewrite He, Hp. simpl. destruct env; auto.
Qed.

End Memoizer.

(* ===================================================================== *)
(** ** The connection memoizer under concurrent callers *)
(* ===================================================================== *)

Section Concurrent.

Context {Handle Doc : Type}.
Variable B : Backend Handle Doc.
Variable uri : option string.

Implicit Types (m : Machine Handle) (evs : list Event) (order : list nat).

Lemma run_app evs1 evs2 m :
  run B uri (evs1 ++ evs2) m =
    match run B uri evs1 m with
    | Some m' => run B uri evs2 m'
    | None => None
    end.
Proof.
  revert m. induction evs1 as [|ev evs1 IH]; intros m; simpl; [reflexivity |].
  destruct (step B uri ev m); [apply IH | reflexivity].
Qed.

(** While an attempt is recorded in the cache and no connection is,
    every new caller suspends on that attempt and changes nothing. *)
Lemma run_calls_pending (n : nat) : forall m pid,
  conn (cached (proc m)) = None ->
  promise (cached (proc m)) = Some pid ->
  run B uri (replicate n Call) m =
    Some {| proc := proc m; settled := settled m;
            tasks := tasks m ++ replicate n (Waiting pid) |}.
Proof.
  induction n as [|n IH]; intros m pid Hc Hp; simpl.
  - rewrite app_nil_r. destruct m; reflexivity.
  - unfold connectDB_start. rewrite Hc, Hp.
    rewrite (IH _ pid) by assumption. simpl.
    rewrite <- app_assoc. reflexivity.
Qed.

(** One request's [await connectDB()] is the schedule in which its
    caller arrives, the attempt it waits for settles, and it is resumed. *)
Lemma await_connectDB_schedule (p p1 : Process Handle) pid :
  connectDB_start uri p = (p1, Await pid) ->
  (pid < length (connects p1))%nat ->
  run B uri [Call; Settle pid; Resume 0] (machine_of p) =
    Some {| proc := fst (await_connectDB B uri p);
            settled := [pid];
            tasks := [Finished (snd (await_connectDB B uri p))] |}.
Proof.
  intros Hs Hlt. unfold await_connectDB. simpl. rewrite Hs. simpl.
  apply Nat.ltb_lt in Hlt. rewrite Hlt. simpl.
  unfold is_settled. simpl. rewrite Nat.eqb_refl. simpl.
  destruct (connectDB_resume (connect_outcome B pid) p1); reflexivity.
Qed.

Lemma await_connectDB_immediate (p p1 : Process Handle) c :
  connectDB_start uri p = (p1, Done c) ->
  run B uri [Call] (machine_of p) =
    Some {| proc := fst (await_connectDB B uri p);
            settled := [];
            tasks := [Finished (snd (await_connectDB B uri p))] |}.
Proof.
  intros Hs. unfold await_connectDB. simpl. rewrite Hs. reflexivity.
Qed.

(** Resuming, in any order, callers that wait for a settled promise. *)
Lemma run_resumes pid order : forall m,
  NoDup order ->
  (forall t, t ∈ order -> tasks m !! t = Some (Waiting pid)) ->
  is_settled pid m = true ->
  exists m',
    run B uri (map Resume order) m = Some m' /\
    settled m' = settled m /\
    proc m' = match order with
              | [] => proc m
              | _ => fst (connectDB_resume (connect_outcome B pid) (proc m))
              end /\
    length (tasks m') = length (tasks m) /\
    (forall t, t ∈ order ->
       tasks m' !! t = Some (Finished (connect_outcome B pid))) /\
    (forall t, t ∉ order -> tasks m' !! t = tasks m !! t).
Proof.
  induction order as [|t order IH]; intros m Hnd Hw Hs.
  - exists m. simpl. repeat split; auto. intros t Ht. inversion Ht.
  - apply NoDup_cons in Hnd as [Ht Hnd]. simpl.
    rewrite (Hw t) by left. rewrite Hs.
    destruct (connectDB_resume (connect_outcome B pid) (proc m))
      as [p' c] eqn:Hr.
    assert (Hc : c = connect_outcome B pid).
    { rewrite <- (connectDB_resume_result (connect_outcome B pid) (proc m)).
      rewrite Hr. reflexivity. }
    subst c.
    set (m1 := {| proc := p'; settled := settled m;
                  tasks := <[t := Finished (connect_outcome B pid)]>
                             (tasks m) |}).
    assert (Hlt : (t < length (tasks m))%nat).
    { eapply lookup_lt_Some, Hw. left. }
    destruct (IH m1 Hnd) as (m' & Hrun & Hset & Hproc & Hlen & Hin & Hout).
    + intros t' Ht'. simpl. rewrite list_lookup_insert_ne.
      * apply Hw. right. exact Ht'.
      * intros ->. contradiction.
    + exact Hs.
    + exists m'. split; [exact Hrun |]. split; [exact Hset |].
      split; [| split; [| split]].
      * rewrite Hproc. simpl. destruct order; [reflexivity |].
        replace p' with
          (fst (connectDB_resume (connect_outcome B pid) (proc m)))
          by (rewrite Hr; reflexivity).
        apply connectDB_resume_twice.
      * rewrite Hlen. simpl. apply length_insert.
      * intros t' Ht'. apply elem_of_cons in Ht' as [-> | Ht'].
        -- rewrite Hout by exact Ht. simpl.
           apply list_lookup_insert_eq. exact Hlt.
        -- apply Hin, Ht'.
      * intros t' Ht'. apply not_elem_of_cons in Ht' as [Hne Ht'].
        rewrite Hout by exact Ht'. simpl.
        apply list_lookup_insert_ne. congruence.
Qed.

Lemma step_single_attempt ev m m' :
  is_call ev = false -> single_attempt B m -> step B uri ev m = Some m' ->
  single_attempt B m'.
Proof.
  intros Hev [Hc Ht]. destruct ev as [|pid|tid]; [discriminate | |]; simpl.
  - destruct (_ && _); [| discriminate].
    intros E. injection E as <-. split; assumption.
  - destruct (tasks m !! tid) as [[pid|c]|] eqn:Hl; try discriminate.
    destruct (is_settled pid m); [| discriminate].
    assert (Hpid : pid = 0%nat).
    { eapply Forall_lookup_1 in Ht; [| exact Hl].
      destruct Ht as [E | E]; [injection E as -> | discriminate].
      reflexivity. }
    subst pid.
    destruct (connectDB_resume (connect_outcome B 0) (proc m))
      as [p' c] eqn:Hr.
    intros E. injection E as <-. split; simpl.
    + pose proof (connectDB_resume_connects (connect_outcome B 0) (proc m))
        as Hk.
      rewrite Hr in Hk. simpl in Hk. rewrite Hk. exact Hc.
    + apply Forall_insert; [exact Ht |]. right.
      pose proof (connectDB_resume_result (connect_outcome B 0) (proc m))
        as Hk.
      rewrite Hr in Hk. simpl in Hk. rewrite Hk. reflexivity.
Qed.

Lemma run_single_attempt evs : forall m m',
  Forall (fun ev => is_call ev = false) evs ->
  single_attempt B m -> run B uri evs m = Some m' -> single_attempt B m'.
Proof.
  induction evs as [|ev evs IH]; intros m m' Hevs Hm; simpl.
  - intros E. injection E as <-. exact Hm.
  - apply Forall_cons in Hevs as [Hev Hevs].
    destruct (step B uri ev m) as [m1|] eqn:Hs; [| discriminate].
    apply (IH m1 m' Hevs). eapply step_single_attempt; eassumption.
Qed.

End Concurrent.

Section FirstCalls.

Context {Handle Doc : Type}.
Variable B : Backend Handle Doc.

(** C1.  After the module was loaded with a cold cache (no connection,
    no attempt pending), let [n >= 1] callers invoke [connectDB] before
    anything else happens.
    Then exactly one connection attempt has been started, its promise is
    in the cache, and every caller is suspended on it.  From there on,
    as long as no further caller arrives, however the event loop orders
    the settling of the attempt and the continuations, there is still
    that one attempt only and every caller either waits for it or has
    its outcome.  Once the attempt has settled and the callers were
    resumed, in any order, every one of them has the outcome of that
    attempt: the same handle, or the same exception. *)
Theorem concurrent_first_calls env global (L : Loaded Handle) (n : nat)
    (order : list nat) :
  load_module env global = Normal L ->
  global_mongoose L = empty_cache ->
  (0 < n)%nat ->
  order ≡ₚ seq 0 n ->
  exists m1 m2,
    run B (MONGODB_URI L) (replicate n Call) (machine_of (boot L))
      = Some m1 /\
    length (connects (proc m1)) = 1%nat /\
    promise (cached (proc m1)) = Some 0%nat /\
    tasks m1 = replicate n (Waiting 0) /\
    (forall evs m,
       Forall (fun ev => is_call ev = false) evs ->
       run B (MONGODB_URI L) evs m1 = Some m -> single_attempt B m) /\
    run B (MONGODB_URI L) (Settle 0 :: map Resume order) m1 = Some m2 /\
    length (connects (proc m2)) = 1%nat /\
    tasks m2 = replicate n (Finished (connect_outcome B 0)).
Proof.
  intros Hload Hcold Hn Hperm. unfold load_module in Hload.
  destruct (env_truthy env) eqn:Henv; [| discriminate]. simpl in Hload.
  injection Hload as <-. simpl in Hcold. simpl. rewrite Hcold.
  destruct env as [u|]; [| discriminate].
  destruct n as [|k]; [lia |].
  set (p1 := {| cached := {| conn := None; promise := Some 0%nat |};
                connects := [{| connect_uri := u; bufferCommands := false |}];
                calls := [] |} : Process Handle).
  set (m1 := {| proc := p1; settled := [];
                tasks := replicate (S k) (Waiting 0) |}).
  assert (Hcalls : run B (Some u) (replicate (S k) Call)
                     (machine_of (boot {| MONGODB_URI := Some u;
                                          global_mongoose := empty_cache |}))
                   = Some m1).
  { simpl. unfold connectDB_start. simpl. simpl in Henv. rewrite Henv.
    simpl.
    rewrite (run_calls_pending B (Some u) k _ 0%nat) by reflexivity.
    reflexivity. }
  assert (Hinv : single_attempt B m1).
  { split; [reflexivity |]. simpl. constructor; [auto |].
    apply Forall_replicate. auto. }
  set (m1' := {| proc := p1; settled := [0%nat];
                 tasks := replicate (S k) (Waiting 0) |}).
  destruct (run_resumes B (Some u) 0%nat order m1')
    as (m2 & Hrun & _ & Hproc & Hlen & Hin & _).
  { rewrite Hperm. apply NoDup_seq. }
  { intros t Ht. rewrite Hperm in Ht. apply elem_of_seq in Ht.
    apply (lookup_replicate_2 (S k) (Waiting (Handle := Handle) 0) t). lia. }
  { reflexivity. }
  exists m1, m2. split; [exact Hcalls |].
  split; [reflexivity |]. split; [reflexivity |]. split; [reflexivity |].
  split; [| split; [| split]].
  - intros evs m Hevs Hr. eapply run_single_attempt; eassumption.
  - exact Hrun.
  - rewrite Hproc. destruct order; [reflexivity |].
    rewrite connectDB_resume_connects. reflexivity.
  - apply list_eq. intros i.
    destruct (decide (i < S k)%nat) as [Hi | Hi].
    + rewrite Hin by (rewrite Hperm; apply elem_of_seq; lia).
      symmetry. apply lookup_replicate_2. exact Hi.
    + rewrite (lookup_ge_None_2 (tasks m2))
        by (rewrite Hlen; simpl; rewrite length_replicate; lia).
      symmetry. apply lookup_ge_None_2. rewrite length_replicate. lia.
Qed.

End FirstCalls.

(* ===================================================================== *)
(** ** The properties at work on the sample data *)
(* ===================================================================== *)

Section Instances.

Import Sample.

(** The examples of the specification: a slug of the collection, a
    malformed one, and a well-formed one that no event carries. *)
Example GET_examples :
  snd (get healthy config (JString (lit "summer-fest-2024")) cold)
    = ok summer_fest /\
  snd (get healthy config (JString (lit "Summer_Fest")) cold)
    = bad_request malformed_message /\
  snd (get healthy config (JString (lit "nonexistent-event")) cold)
    = not_found.
Proof. repeat split. Qed.

(** A document that cannot be serialised: the query finds it, building
    the 200 response throws, and the [catch] block logs the exception
    and answers 500. *)
Example GET_unencodable_document :
  get unencodable config (JString (lit "react-conf")) cold
  = ({| cached := {| conn := Some 0%nat; promise := Some 0%nat |};
        connects := [{| connect_uri := uri; bufferCommands := false |}];
        calls := [CallConnectDB; CallFindOne (lit "react-conf");
                  CallConsoleError not_encodable] |},
     server_error).
Proof. reflexivity. Qed.

Lemma GET_rejects_non_slug_witness :
  ~ matches slugPattern (lit "foo_bar") /\
  fst (get healthy config (JString (lit "foo_bar")) cold) = cold /\
  status (snd (get healthy config (JString (lit "foo_bar")) cold)) = 400%N.
Proof.
  assert (H : ~ matches slugPattern (lit "foo_bar")).
  { intros H. apply test_matches in H. discriminate. }
  split; [exact H |].
  destruct (GET_rejects_non_slug slug healthy config (lit "foo_bar") cold H)
    as (H1 & H2 & _).
  split; [exact H1 | exact H2].
Defined.

Lemma GET_missing_slug_witness :
  trim (lit "   ") = [] /\
  get healthy config (JString (lit "   ")) cold
    = (cold, bad_request missing_message).
Proof.
  split; [reflexivity |].
  apply (GET_missing_slug slug healthy config (JString (lit "   ")) cold).
  right. right. exists (lit "   "). split; reflexivity.
Defined.

Lemma GET_found_witness :
  matches slugPattern (lit "summer-fest-2024") /\
  snd (get healthy config (JString (lit "summer-fest-2024")) cold)
    = ok summer_fest.
Proof.
  assert (H : matches slugPattern (lit "summer-fest-2024")).
  { apply test_matches. reflexivity. }
  split; [exact H |].
  refine (f_equal snd
            (GET_found slug healthy config (lit "summer-fest-2024")
               summer_fest cold _ 0%nat H _ eq_refl _ eq_refl eq_refl
               eq_refl)).
  - left. reflexivity.
  - simpl. apply NoDup_cons_2; [| apply NoDup_singleton].
    intros E. apply list_elem_of_singleton in E. discriminate.
Defined.

(** C3, as it was stated, fails: the slug is well formed and an event
    of the collection carries it, yet with the database out of reach
    the response is the 500 one.  So it is when the database answers and
    the document found cannot be serialised. *)
Lemma GET_found_counterexample :
  matches slugPattern (lit "summer-fest-2024") /\
  In summer_fest (store unreachable) /\
  slug summer_fest = lit "summer-fest-2024" /\
  snd (get unreachable config (JString (lit "summer-fest-2024")) cold)
    = server_error /\
  status (snd (get unreachable config (JString (lit "summer-fest-2024"))
                 cold)) <> 200%N /\
  matches slugPattern (lit "react-conf") /\
  In react_conf (store unencodable) /\
  slug react_conf = lit "react-conf" /\
  snd (get unencodable config (JString (lit "react-conf")) cold)
    = server_error.
Proof.
  split; [apply test_matches; reflexivity |].
  split; [left; reflexivity |].
  split; [reflexivity |]. split; [reflexivity |].
  split; [discriminate |].
  split; [apply test_matches; reflexivity |].
  split; [right; left; reflexivity |].
  split; reflexivity.
Qed.

Lemma GET_not_found_witness :
  matches slugPattern (lit "nonexistent-event") /\
  snd (get healthy config (JString (lit "nonexistent-event")) cold)
    = not_found.
Proof.
  assert (H : matches slugPattern (lit "nonexistent-event")).
  { apply test_matches. reflexivity. }
  split; [exact H |].
  refine (f_equal snd
            (GET_not_found slug healthy config (lit "nonexistent-event")
               cold _ 0%nat H _ eq_refl eq_refl)).
  intros d [<- | [<- | []]]; discriminate.
Defined.

(** C8, as it was stated, fails: the slug is well formed and no event
    carries it, yet when the query fails the response is the 500 one. *)
Lemma GET_not_found_counterexample :
  matches slugPattern (lit "nonexistent-event") /\
  (forall d, In d (store failing_queries) ->
     slug d <> lit "nonexistent-event") /\
  snd (get failing_queries config (JString (lit "nonexistent-event")) cold)
    = server_error /\
  status (snd (get failing_queries config
                 (JString (lit "nonexistent-event")) cold)) <> 404%N.
Proof.
  split; [apply test_matches; reflexivity |].
  split; [intros d [<- | [<- | []]]; discriminate |].
  split; [reflexivity | discriminate].
Qed.

Lemma GET_backend_failure_witness :
  matches slugPattern (lit "react-conf") /\
  snd (get unreachable config (JString (lit "react-conf")) cold)
    = server_error.
Proof.
  assert (H : matches slugPattern (lit "react-conf")).
  { apply test_matches. reflexivity. }
  split; [exact H |].
  apply (GET_backend_failure slug unreachable config (lit "react-conf") cold
           refused H).
  left. reflexivity.
Defined.

Lemma connectDB_memoized_witness :
  await_connectDB healthy config
    (fst (await_connectDB healthy config cold))
  = (fst (await_connectDB healthy config cold), Normal 0%nat).
Proof.
  apply (connectDB_memoized healthy config).
  right. exists healthy, config, cold. reflexivity.
Defined.

Lemma connectDB_failure_witness :
  exists p',
    await_connectDB unreachable config cold = (p', Throw refused) /\
    cached p' = empty_cache.
Proof.
  destruct (connectDB_failure unreachable config cold _ 0%nat refused
              eq_refl eq_refl) as (p' & H1 & H2 & _).
  exists p'. split; assumption.
Defined.

Lemma missing_uri_fails_witness :
  load_module (Handle := nat) None None = Throw config_error /\
  await_connectDB healthy None cold = (cold, Throw config_error).
Proof.
  destruct (missing_uri_fails healthy None None cold eq_refl eq_refl)
    as (H1 & _ & H2).
  split; assumption.
Defined.

Lemma concurrent_first_calls_witness :
  exists m1 m2,
    run unreachable config (replicate 3 Call) (machine_of cold) = Some m1 /\
    run unreachable config (Settle 0 :: map Resume [1; 0; 2]%nat) m1
      = Some m2 /\
    length (connects (proc m2)) = 1%nat /\
    tasks m2 = replicate 3 (Finished (Throw refused)).
Proof.
  destruct (concurrent_first_calls unreachable config None
              {| MONGODB_URI := config; global_mongoose := empty_cache |}
              3 [1; 0; 2]%nat eq_refl eq_refl)
    as (m1 & m2 & H1 & _ & _ & _ & _ & H2 & H3 & H4).
  - lia.
  - apply perm_swap.
  - exists m1, m2. split; [exact H1 |]. split; [exact H2 |].
    split; [exact H3 | exact H4].
Defined.

End Instances.

(* ===================================================================== *)
(** ** The language of the slug pattern *)
(* ===================================================================== *)

Section SlugLanguage.

Implicit Types (s seg : jsstring) (segs : list jsstring) (c : N).

Lemma hyphen_class c : in_class c [(45, 45)]%N = true <-> c = 45%N.
Proof.
  unfold in_class. simpl. rewrite orb_false_r, andb_true_iff, !N.leb_le. lia.
Qed.

Lemma is_lower_alnum_not_hyphen c : is_lower_alnum c = true -> c <> 45%N.
Proof.
  unfold is_lower_alnum, in_class. simpl.
  rewrite orb_false_r, orb_true_iff, !andb_true_iff, !N.leb_le. lia.
Qed.

(** [[a-z0-9]*] is the set of words over the class. *)
Lemma star_class_matches s :
  matches (Star lower_alnum) s <-> Forall (fun c => is_lower_alnum c = true) s.
Proof.
  split.
  - intros H. remember (Star lower_alnum) as r eqn:Er.
    induction H as [| | | | | |r0 u1 u2 H1 _ H2 IH2]; try discriminate.
    + constructor.
    + injection Er as ->. apply Forall_app. split; [| apply IH2; reflexivity].
      inversion H1; subst. constructor; [assumption | constructor].
  - induction 1 as [|c s Hc _ IH]; [constructor |].
    apply (MStarApp lower_alnum [c] s); [constructor; exact Hc | exact IH].
Qed.

(** [[a-z0-9]+] is the set of segments. *)
Lemma plus_class_matches s : matches (Plus lower_alnum) s <-> segment s.
Proof.
  unfold Plus, segment. split.
  - inversion 1 as [| |? ? u1 u2 H1 H2| | | |]; subst.
    inversion H1; subst. apply star_class_matches in H2.
    split; [discriminate |]. constructor; assumption.
  - intros [Hne Hall]. destruct s as [|c s]; [contradiction |].
    apply Forall_cons in Hall as [Hc Hall].
    apply (MCat lower_alnum (Star lower_alnum) [c] s).
    + constructor. exact Hc.
    + apply star_class_matches, Hall.
Qed.

(** [(?:-[a-z0-9]+)*] is the set of concatenations of segments, each
    preceded by a hyphen. *)
Lemma star_tail_matches s :
  matches (Star (Cat hyphen (Plus lower_alnum))) s <->
  exists segs, Forall segment segs /\
               s = concat (map (fun t => 45%N :: t) segs).
Proof.
  split.
  - intros H. remember (Star (Cat hyphen (Plus lower_alnum))) as r eqn:Er.
    induction H as [| | | | | |r0 u1 u2 H1 _ H2 IH2]; try discriminate.
    + exists []. split; [constructor | reflexivity].
    + injection Er as ->. destruct (IH2 eq_refl) as (segs & Hs & ->).
      inversion H1 as [| |? ? v1 v2 Hh Hp| | | |]; subst.
      inversion Hh as [|c ? Hc| | | | |]; subst.
      apply hyphen_class in Hc as ->. apply plus_class_matches in Hp.
      exists (v2 :: segs). split; [constructor; assumption |].
      reflexivity.
  - intros (segs & Hs & ->). induction Hs as [|seg segs Hseg _ IH]; simpl.
    + constructor.
    + apply (MStarApp _ (45%N :: seg)); [| exact IH].
      apply (MCat hyphen (Plus lower_alnum) [45%N] seg).
      * constructor. reflexivity.
      * apply plus_class_matches, Hseg.
Qed.

(** The strings the route accepts as slugs are the non-empty runs of
    lowercase letters and digits joined by single hyphens. *)
Theorem slug_segments s :
  test slugPattern s = true <->
  exists seg segs,
    segment seg /\ Forall segment segs /\ s = join_segments seg segs.
Proof.
  rewrite test_matches. unfold slugPattern, join_segments. split.
  - inversion 1 as [| |? ? u1 u2 H1 H2| | | |]; subst.
    apply plus_class_matches in H1.
    apply star_tail_matches in H2 as (segs & Hs & ->).
    exists u1, segs. auto.
  - intros (seg & segs & Hseg & Hs & ->). constructor.
    + apply plus_class_matches, Hseg.
    + apply star_tail_matches. exists segs. auto.
Qed.

Lemma slug_scan_segment seg s b :
  Forall (fun c => is_lower_alnum c = true) seg ->
  slug_scan b (seg ++ s) = slug_scan (match seg with [] => b | _ => true end) s.
Proof.
  intros H. revert b. induction H as [|c seg Hc _ IH]; intros b; simpl.
  - reflexivity.
  - rewrite Hc, IH. destruct seg; reflexivity.
Qed.

Lemma slug_scan_tail segs :
  Forall segment segs ->
  slug_scan true (concat (map (fun t => 45%N :: t) segs)) = true.
Proof.
  induction 1 as [|seg segs [Hne Hall] _ IH]; simpl; [reflexivity |].
  change (slug_scan false
            (seg ++ concat (map (fun t => 45%N :: t) segs)) = true).
  rewrite slug_scan_segment by exact Hall.
  destruct seg; [contradiction |]. exact IH.
Qed.

Lemma slug_scan_split s : forall b,
  slug_scan b s = true ->
  exists seg segs,
    Forall (fun c => is_lower_alnum c = true) seg /\
    (b = false -> seg <> []) /\
    Forall segment segs /\ s = join_segments seg segs.
Proof.
  unfold join_segments.
  induction s as [|c s IH]; intros b; simpl.
  - intros ->. exists [], []. repeat split; auto; discriminate.
  - destruct (is_lower_alnum c) eqn:Hc.
    + intros H. apply IH in H as (seg & segs & Hall & _ & Hs & ->).
      exists (c :: seg), segs. repeat split; auto; discriminate.
    + destruct (c =? 45)%N eqn:E; [| discriminate].
      apply N.eqb_eq in E as ->. intros H.
      apply andb_true_iff in H as [-> H].
      apply IH in H as (seg & segs & Hall & Hne & Hs & ->).
      exists [], (seg :: segs). repeat split; auto; try discriminate.
      constructor; [| exact Hs]. split; auto.
Qed.

(** The one-pass recogniser and the pattern agree. *)
Lemma slug_scan_test s : slug_scan false s = test slugPattern s.
Proof.
  apply eq_true_iff_eq. rewrite test_matches. unfold slugPattern. split.
  - intros H. apply slug_scan_split in H
      as (seg & segs & Hall & Hne & Hs & ->).
    apply MCat.
    + apply plus_class_matches. split; auto.
    + apply star_tail_matches. exists segs. auto.
  - inversion 1 as [| |? ? u1 u2 H1 H2| | | |]; subst.
    apply plus_class_matches in H1 as [Hne Hall].
    apply star_tail_matches in H2 as (segs & Hs & ->).
    rewrite slug_scan_segment by exact Hall.
    destruct u1; [contradiction |]. apply slug_scan_tail, Hs.
Qed.

Lemma slug_scan_chars s : forall b,
  slug_scan b s = true ->
  Forall (fun c => is_lower_alnum c = true \/ c = 45%N) s.
Proof.
  induction s as [|c s IH]; intros b; simpl; [constructor |].
  destruct (is_lower_alnum c) eqn:Hc.
  - intros H. constructor; [auto | eapply IH, H].
  - destruct (c =? 45)%N eqn:E; [| discriminate].
    apply N.eqb_eq in E. intros H. apply andb_true_iff in H as [_ H].
    constructor; [auto | eapply IH, H].
Qed.

Lemma slug_scan_trailing_hyphen s : forall b,
  slug_scan b (s ++ [45%N]) = false.
Proof.
  induction s as [|c s IH]; intros b; simpl.
  - apply andb_false_r.
  - destruct (is_lower_alnum c); [apply IH |].
    destruct (c =? 45)%N; [| reflexivity]. rewrite IH. apply andb_false_r.
Qed.

Lemma slug_scan_double_hyphen s t : forall b,
  slug_scan b (s ++ 45%N :: 45%N :: t) = false.
Proof.
  induction s as [|c s IH]; intros b; simpl.
  - apply andb_false_r.
  - destruct (is_lower_alnum c); [apply IH |].
    destruct (c =? 45)%N; [| reflexivity]. rewrite IH. apply andb_false_r.
Qed.

(** What an accepted slug never is: empty, made of anything but
    lowercase letters, digits and hyphens, led or trailed by a hyphen, or
    holding two hyphens in a row. *)
Theorem slug_shape s :
  test slugPattern s = true ->
  s <> [] /\
  Forall (fun c => is_lower_alnum c = true \/ c = 45%N) s /\
  (forall t, s <> 45%N :: t) /\
  (forall t, s <> t ++ [45%N]) /\
  (forall t1 t2, s <> t1 ++ 45%N :: 45%N :: t2).
Proof.
  rewrite <- slug_scan_test. intros H. repeat split.
  - intros ->. discriminate.
  - eapply slug_scan_chars, H.
  - intros t ->. discriminate.
  - intros t ->. rewrite slug_scan_trailing_hyphen in H. discriminate.
  - intros t1 t2 ->. rewrite slug_scan_double_hyphen in H. discriminate.
Qed.

End SlugLanguage.

(* ===================================================================== *)
(** ** What a request does to the process *)
(* ===================================================================== *)

Section Requests.

Context {Handle Doc : Type}.
Variable doc_slug : Doc -> jsstring.

Implicit Types (B : Backend Handle Doc) (p : Process Handle).
Implicit Types (s : jsstring) (v : JsValue).


(** With a connection in the cache a call returns it and changes
    nothing. *)
Lemma await_connectDB_warm B uri p (h : Handle) :
  conn (cached p) = Some h -> await_connectDB B uri p = (p, Normal h).
Proof.
  intros Hc. unfold await_connectDB, connectDB_start. rewrite Hc. reflexivity.
Qed.


(** A call of [connectDB] leaves the handlers' log alone and starts at
    most one attempt, and none unless the cache is empty. *)
Lemma await_connectDB_effect B uri p :
  calls (fst (await_connectDB B uri p)) = calls p /\
  exists extra,
    connects (fst (await_connectDB B uri p)) = connects p ++ extra /\
    (length extra <= 1)%nat /\
    (cache_is_empty (cached p) = false -> extra = []).
Proof.
  unfold await_connectDB, connectDB_start, cache_is_empty.
  destruct (conn (cached p)) as [h|].
  - simpl. split; [reflexivity |]. exists []. rewrite app_nil_r. auto.
  - destruct (promise (cached p)) as [pid|].
    + destruct (connect_outcome B pid); simpl;
        (split; [reflexivity |]); exists []; rewrite app_nil_r; auto.
    + destruct uri as [u|].
      * destruct (negb (env_truthy (Some u))).
        -- simpl. split; [reflexivity |]. exists [].
           rewrite app_nil_r. auto.
        -- destruct (connect_outcome B (length (connects p))); simpl;
             (split; [reflexivity |]); eexists; (split; [reflexivity |]);
             simpl; split; (lia || discriminate).
      * simpl. split; [reflexivity |]. exists []. rewrite app_nil_r. auto.
Qed.

Lemma GET_not_slug B uri v p :
  ~ (exists s, v = JString s /\ matches slugPattern s) ->
  exists msg, GET doc_slug B uri v p = (p, bad_request msg).
Proof.
  intros H. destruct (slug_missing v) eqn:Hm.
  - exists missing_message. apply GET_missing, Hm.
  - destruct v as [| |b|n|s|];
      try (rewrite slug_missing_not_string in Hm by discriminate;
           discriminate).
    exists malformed_message. apply GET_malformed; [exact Hm |].
    destruct (test slugPattern s) eqn:E; [| reflexivity].
    apply test_matches in E. exfalso. apply H. eauto.
Qed.

Lemma matches_slug_dec v :
  (exists s, v = JString s /\ matches slugPattern s) \/
  ~ (exists s, v = JString s /\ matches slugPattern s).
Proof.
  destruct v as [| |b|n|s|];
    try (right; intros (s0 & E & _); discriminate).
  destruct (test slugPattern s) eqn:E.
  - left. exists s. split; [reflexivity | apply test_matches, E].
  - right. intros (s0 & Es & H). injection Es as <-.
    apply test_matches in H. congruence.
Qed.

(** Status 400 is the answer to exactly the values that are not a string
    of the pattern's language. *)
Theorem GET_400_iff B uri v p :
  status (snd (GET doc_slug B uri v p)) = 400%N <->
  ~ (exists s, v = JString s /\ matches slugPattern s).
Proof.
  split.
  - intros H (s & -> & Hs). rewrite GET_valid in H by exact Hs.
    destruct (await_connectDB B uri (log_call CallConnectDB p))
      as [p1 [h|e]]; [| discriminate].
    destruct (Event_findOne doc_slug B s) as [[d|]|e];
      [destruct (stringify_fault B d) | |]; discriminate.
  - intros H. destruct (GET_not_slug B uri v p H) as [msg ->]. reflexivity.
Qed.

(** A 200 response was earned: the slug is well formed, the body holds a
    document of the collection that carries this very slug, the query did
    not fail, and the cache now holds a connection. *)
Theorem GET_200_sound B uri v p :
  status (snd (GET doc_slug B uri v p)) = 200%N ->
  exists s d,
    v = JString s /\ matches slugPattern s /\
    snd (GET doc_slug B uri v p) = ok d /\
    In d (store B) /\ doc_slug d = s /\
    query_fault B s = None /\
    conn (cached (fst (GET doc_slug B uri v p))) <> None.
Proof.
  intros H. destruct (matches_slug_dec v) as [(s & -> & Hs) | Hv].
  - rewrite GET_valid in * by exact Hs.
    destruct (await_connectDB B uri (log_call CallConnectDB p))
      as [p1 [h|e]] eqn:Ha; [| discriminate].
    apply await_connectDB_normal in Ha.
    unfold Event_findOne in *.
    destruct (query_fault B s) eqn:Hq; [discriminate |].
    destruct (find _ (store B)) as [d|] eqn:Hf; [| discriminate].
    destruct (stringify_fault B d) eqn:Hj; [discriminate |].
    apply find_some in Hf as [Hin Hd]. apply jsstring_eqb_eq in Hd.
    exists s, d. simpl. rewrite Ha.
    split; [reflexivity |]. split; [exact Hs |]. split; [reflexivity |].
    split; [exact Hin |]. split; [exact Hd |]. split; [exact Hq |].
    discriminate.
  - destruct (GET_not_slug B uri v p Hv) as [msg E]. rewrite E in H.
    discriminate.
Qed.

(** A 404 response is never given for a slug that a document of the
    collection carries. *)
Theorem GET_404_sound B uri v p :
  status (snd (GET doc_slug B uri v p)) = 404%N ->
  exists s,
    v = JString s /\ matches slugPattern s /\
    snd (GET doc_slug B uri v p) = not_found /\
    (forall d, In d (store B) -> doc_slug d <> s) /\
    conn (cached (fst (GET doc_slug B uri v p))) <> None.
Proof.
  intros H. destruct (matches_slug_dec v) as [(s & -> & Hs) | Hv].
  - rewrite GET_valid in * by exact Hs.
    destruct (await_connectDB B uri (log_call CallConnectDB p))
      as [p1 [h|e]] eqn:Ha; [| discriminate].
    apply await_connectDB_normal in Ha.
    unfold Event_findOne in *.
    destruct (query_fault B s) eqn:Hq; [discriminate |].
    destruct (find _ (store B)) as [d|] eqn:Hf;
      [destruct (stringify_fault B d); discriminate |].
    exists s. simpl. rewrite Ha.
    split; [reflexivity |]. split; [exact Hs |]. split; [reflexivity |].
    split; [| discriminate].
    intros d Hin Hd.
    apply (find_none _ _ Hf) in Hin. apply jsstring_eqb_eq in Hd. congruence.
  - destruct (GET_not_slug B uri v p Hv) as [msg E]. rewrite E in H.
    discriminate.
Qed.

End Requests.

(* ===================================================================== *)
(** ** Requests one after the other *)
(* ===================================================================== *)

Section Composition.

Context {Handle Doc : Type}.
Variable doc_slug : Doc -> jsstring.

Implicit Types (B : Backend Handle Doc) (p : Process Handle).
Implicit Types (s : jsstring) (v : JsValue).

(** One request makes its collaborator calls in a fixed order and at
    most once each: [connectDB] first, the query only after [connectDB]
    returned, [console.error] last and only for a 500 response; a 400
    response makes none.  It starts at most one connection attempt, and
    none when the cache is not empty. *)
Theorem GET_call_discipline B uri v p :
  (exists extra,
     connects (fst (GET doc_slug B uri v p)) = connects p ++ extra /\
     (length extra <= 1)%nat /\
     (cache_is_empty (cached p) = false -> extra = [])) /\
  ((status (snd (GET doc_slug B uri v p)) = 400%N /\
    calls (fst (GET doc_slug B uri v p)) = calls p) \/
   (exists s, v = JString s /\
      (status (snd (GET doc_slug B uri v p)) = 200%N \/
       status (snd (GET doc_slug B uri v p)) = 404%N) /\
      calls (fst (GET doc_slug B uri v p))
        = calls p ++ [CallConnectDB; CallFindOne s]) \/
   (exists s e, v = JString s /\
      status (snd (GET doc_slug B uri v p)) = 500%N /\
      (calls (fst (GET doc_slug B uri v p))
         = calls p ++ [CallConnectDB; CallConsoleError e] \/
       calls (fst (GET doc_slug B uri v p))
         = calls p ++ [CallConnectDB; CallFindOne s; CallConsoleError e]))).
Proof.
  destruct (matches_slug_dec v) as [(s & -> & Hs) | Hv].
  - rewrite GET_valid by exact Hs.
    destruct (await_connectDB_effect B uri (log_call CallConnectDB p))
      as (Hcalls & extra & Hconn & Hlen & Hwarm).
    destruct (await_connectDB B uri (log_call CallConnectDB p))
      as [p1 [h|e]]; simpl in Hcalls, Hconn.
    + destruct (Event_findOne doc_slug B s) as [[d|]|e];
        [destruct (stringify_fault B d) as [e|] | |]; simpl;
        (split; [exists extra; auto |]); rewrite Hcalls, <- ?app_assoc; simpl.
      * right. right. exists s, e. auto.
      * right. left. exists s. auto.
      * right. left. exists s. auto.
      * right. right. exists s, e. auto.
    + simpl. split; [exists extra; auto |].
      rewrite Hcalls, <- app_assoc. simpl.
      right. right. exists s, e. auto.
  - destruct (GET_not_slug doc_slug B uri v p Hv) as [msg ->]. simpl.
    split; [| auto]. exists []. rewrite app_nil_r. auto.
Qed.

(** A request that was not answered with 500 can be repeated: the same
    response comes back, and neither the cache nor the connection
    attempts change. *)
Theorem GET_repeat B uri v p :
  status (snd (GET doc_slug B uri v p)) <> 500%N ->
  snd (GET doc_slug B uri v (fst (GET doc_slug B uri v p)))
    = snd (GET doc_slug B uri v p) /\
  cached (fst (GET doc_slug B uri v (fst (GET doc_slug B uri v p))))
    = cached (fst (GET doc_slug B uri v p)) /\
  connects (fst (GET doc_slug B uri v (fst (GET doc_slug B uri v p))))
    = connects (fst (GET doc_slug B uri v p)).
Proof.
  intros H. destruct (matches_slug_dec v) as [(s & -> & Hs) | Hv].
  - rewrite !(GET_valid doc_slug B uri s) by exact Hs.
    rewrite (GET_valid doc_slug B uri s p) in H by exact Hs.
    destruct (await_connectDB B uri (log_call CallConnectDB p))
      as [p1 [h|e]] eqn:Ha; [| contradiction H; reflexivity].
    apply await_connectDB_normal in Ha.
    assert (Hwarm : forall q, cached q = cached p1 ->
              await_connectDB B uri q = (q, Normal h)).
    { intros q Hq. apply await_connectDB_warm. rewrite Hq. exact Ha. }
    destruct (Event_findOne doc_slug B s) as [[d|]|e];
      [destruct (stringify_fault B d) eqn:Hj;
         [contradiction H; reflexivity |]
      | | contradiction H; reflexivity]; simpl;
      rewrite Hwarm by reflexivity; simpl; rewrite ?Hj; auto.
  - destruct (GET_not_slug doc_slug B uri v p Hv) as [msg E].
    rewrite E. simpl. rewrite E. auto.
Qed.


Lemma server_errors_cons (r : Response Doc) rs :
  server_errors (r :: rs)
  = ((if decide (status r = 500%N) then 1 else 0) + server_errors rs)%nat.
Proof.
  unfold server_errors. rewrite filter_cons.
  destruct (decide (status r = 500%N)); reflexivity.
Qed.

(** The balance kept by every request: an attempt is started only from
    an empty cache, and a cache that is empty afterwards means the
    request got 500. *)
Lemma GET_attempt_balance B uri v p :
  (length (connects (fst (GET doc_slug B uri v p)))
   + (if cache_is_empty (cached p) then 0 else 1)
   <= length (connects p)
      + (if cache_is_empty (cached (fst (GET doc_slug B uri v p)))
         then 0 else 1)
      + (if decide (status (snd (GET doc_slug B uri v p)) = 500%N)
         then 1 else 0))%nat.
Proof.
  destruct (matches_slug_dec v) as [(s & -> & Hs) | Hv].
  - rewrite GET_valid by exact Hs.
    destruct (await_connectDB_effect B uri (log_call CallConnectDB p))
      as (_ & extra & Hconn & Hlen & Hwarm).
    destruct (await_connectDB B uri (log_call CallConnectDB p))
      as [p1 [h|e]] eqn:Ha; simpl in Hconn, Hwarm.
    + apply await_connectDB_normal in Ha.
      assert (Hne : cache_is_empty (cached p1) = false)
        by (unfold cache_is_empty; rewrite Ha; reflexivity).
      destruct (cache_is_empty (cached p)) eqn:Hp.
      * destruct (Event_findOne doc_slug B s) as [[d|]|e0];
          [destruct (stringify_fault B d) | |]; simpl;
          rewrite Hne, Hconn, length_app; simpl; lia.
      * rewrite (Hwarm eq_refl), app_nil_r in Hconn.
        destruct (Event_findOne doc_slug B s) as [[d|]|e0];
          [destruct (stringify_fault B d) | |]; simpl;
          rewrite Hne, Hconn; simpl; lia.
    + simpl. rewrite Hconn, length_app.
      destruct (cache_is_empty (cached p)) eqn:Hp.
      * destruct (cache_is_empty (cached p1)); simpl; lia.
      * rewrite (Hwarm eq_refl). simpl.
        destruct (cache_is_empty (cached p1)); simpl; lia.
  - destruct (GET_not_slug doc_slug B uri v p Hv) as [msg ->]. simpl.
    destruct (cache_is_empty (cached p)); lia.
Qed.

Lemma serve_attempt_balance B uri vs : forall p,
  (length (connects (fst (serve doc_slug B uri vs p)))
   + (if cache_is_empty (cached p) then 0 else 1)
   <= length (connects p)
      + (if cache_is_empty (cached (fst (serve doc_slug B uri vs p)))
         then 0 else 1)
      + server_errors (snd (serve doc_slug B uri vs p)))%nat.
Proof.
  induction vs as [|v vs IH]; intros p; simpl.
  - unfold server_errors. simpl. lia.
  - pose proof (GET_attempt_balance B uri v p) as Hg.
    destruct (GET doc_slug B uri v p) as [p1 r]. simpl in Hg.
    specialize (IH p1).
    destruct (serve doc_slug B uri vs p1) as [p2 rs]. simpl in IH |- *.
    rewrite server_errors_cons. lia.
Qed.

(** Serving requests one after the other starts at most one connection
    attempt more than the number of 500 responses given; every request
    gets its response. *)
Theorem serve_attempts B uri vs p :
  (length (connects (fst (serve doc_slug B uri vs p)))
   <= length (connects p)
      + S (server_errors (snd (serve doc_slug B uri vs p))))%nat /\
  length (snd (serve doc_slug B uri vs p)) = length vs.
Proof.
  split.
  - pose proof (serve_attempt_balance B uri vs p) as H.
    destruct (cache_is_empty (cached p));
      destruct (cache_is_empty (cached (fst (serve doc_slug B uri vs p))));
      lia.
  - revert p. induction vs as [|v vs IH]; intros p; simpl; [reflexivity |].
    destruct (GET doc_slug B uri v p) as [p1 r]. specialize (IH p1).
    destruct (serve doc_slug B uri vs p1) as [p2 rs]. simpl in *. lia.
Qed.

End Composition.

(* ===================================================================== *)
(** ** Module evaluation and the event loop, in general *)
(* ===================================================================== *)

Section EventLoop.

Context {Handle Doc : Type}.
Variable B : Backend Handle Doc.

Implicit Types (m : Machine Handle) (evs : list Event) (u : string).

(** Evaluating the module again, as a hot reload does, keeps the cache
    that [global.mongoose] holds: a connection established before is
    returned by [connectDB] at once, and no attempt is started. *)
Theorem load_module_reuses_cache env (c : MongooseCache Handle) h :
  env_truthy env = true ->
  conn c = Some h ->
  exists L,
    load_module env (Some c) = Normal L /\
    MONGODB_URI L = env /\ global_mongoose L = c /\
    await_connectDB B (MONGODB_URI L) (boot L) = (boot L, Normal h).
Proof.
  intros He Hc. unfold load_module. rewrite He. simpl.
  eexists. split; [reflexivity |]. simpl.
  split; [reflexivity |]. split; [reflexivity |].
  apply await_connectDB_warm. exact Hc.
Qed.

Lemma truthy_uri u : u <> EmptyString -> env_truthy (Some u) = true.
Proof.
  intros Hu. simpl. destruct (String.eqb u EmptyString) eqn:E;
    [apply String.eqb_eq in E; contradiction | reflexivity].
Qed.

(** What holds along every schedule when the first attempt succeeds. *)
Lemma step_first_attempt_succeeds u h ev m m' :
  u <> EmptyString ->
  connect_outcome B 0 = Normal h ->
  (proc m = cold /\ tasks m = []) \/
  (length (connects (proc m)) = 1%nat /\
   promise (cached (proc m)) = Some 0%nat /\
   (conn (cached (proc m)) = None \/ conn (cached (proc m)) = Some h) /\
   Forall (fun t => t = Waiting 0 \/ t = Finished (Normal h)) (tasks m)) ->
  step B (Some u) ev m = Some m' ->
  length (connects (proc m')) = 1%nat /\
  promise (cached (proc m')) = Some 0%nat /\
  (conn (cached (proc m')) = None \/ conn (cached (proc m')) = Some h) /\
  Forall (fun t => t = Waiting 0 \/ t = Finished (Normal h)) (tasks m').
Proof.
  intros Hu Ho [[Hp Ht] | (Hlen & Hpr & Hconn & Ht)].
  - destruct ev as [|pid|tid]; simpl; rewrite ?Hp, ?Ht; simpl.
    + unfold connectDB_start. simpl.
      pose proof (truthy_uri u Hu) as E. simpl in E. rewrite E. simpl.
      intros E'. injection E' as <-. simpl.
      split; [reflexivity |]. split; [reflexivity |]. split; [auto |].
      repeat constructor.
    + discriminate.
    + discriminate.
  - destruct ev as [|pid|tid]; simpl.
    + unfold connectDB_start. rewrite Hpr.
      destruct Hconn as [Hc | Hc]; rewrite Hc; intros E; injection E as <-;
        simpl; rewrite Hlen, Hpr, Hc; (split; [reflexivity |]);
        (split; [reflexivity |]); (split; [auto |]);
        apply Forall_app; (split; [exact Ht |]);
        (constructor; [auto | constructor]).
    + destruct (_ && _); [| discriminate].
      intros E. injection E as <-. simpl. auto.
    + destruct (tasks m !! tid) as [[pid|c]|] eqn:Hl; try discriminate.
      destruct (is_settled pid m); [| discriminate].
      assert (Hpid : pid = 0%nat).
      { eapply Forall_lookup_1 in Ht; [| exact Hl].
        destruct Ht as [E | E]; [injection E as -> | discriminate].
        reflexivity. }
      subst pid. rewrite Ho. simpl. intros E. injection E as <-. simpl.
      split; [exact Hlen |]. split; [exact Hpr |]. split; [auto |].
      apply Forall_insert; auto.
Qed.

(** If the first connection attempt succeeds, no second attempt is ever
    started, whatever the arrival of callers and the order of
    continuations: every caller waits for the first attempt or has its
    handle. *)
Theorem first_attempt_succeeds u h evs m :
  u <> EmptyString ->
  connect_outcome B 0 = Normal h ->
  run B (Some u) evs (machine_of cold) = Some m ->
  (length (connects (proc m)) <= 1)%nat /\
  Forall (fun t => t = Waiting 0 \/ t = Finished (Normal h)) (tasks m).
Proof.
  intros Hu Ho.
  assert (Hgen : forall evs m0 m,
    (length (connects (proc m0)) = 1%nat /\
     promise (cached (proc m0)) = Some 0%nat /\
     (conn (cached (proc m0)) = None \/ conn (cached (proc m0)) = Some h) /\
     Forall (fun t => t = Waiting 0 \/ t = Finished (Normal h)) (tasks m0)) ->
    run B (Some u) evs m0 = Some m ->
    (length (connects (proc m)) <= 1)%nat /\
    Forall (fun t => t = Waiting 0 \/ t = Finished (Normal h)) (tasks m)).
  { clear evs m. induction evs as [|ev evs IH]; intros m0 m Hm0; simpl.
    - intros E. injection E as <-. destruct Hm0 as (Hl & _ & _ & Ht).
      split; [lia | exact Ht].
    - destruct (step B (Some u) ev m0) as [m1|] eqn:Hs; [| discriminate].
      apply IH.
      eapply step_first_attempt_succeeds; [exact Hu | exact Ho | | exact Hs].
      right. exact Hm0. }
  destruct evs as [|ev evs]; simpl.
  - intros E. injection E as <-. simpl. split; [lia | constructor].
  - destruct (step B (Some u) ev (machine_of cold)) as [m1|] eqn:Hs;
      [| discriminate].
    apply Hgen.
    eapply step_first_attempt_succeeds; [exact Hu | exact Ho | | exact Hs].
    left. split; reflexivity.
Qed.

End EventLoop.

Section Consistency.

Context {Handle Doc : Type}.
Variable B : Backend Handle Doc.

Implicit Types (m : Machine Handle) (evs : list Event) (u : string).

Lemma is_settled_elem pid m : is_settled pid m = true <-> pid ∈ settled m.
Proof.
  unfold is_settled. rewrite existsb_exists. split.
  - intros (x & Hx & E). apply Nat.eqb_eq in E as ->.
    apply list_elem_of_In, Hx.
  - intros H. exists pid. split; [apply list_elem_of_In, H |].
    apply Nat.eqb_refl.
Qed.

Lemma from_settled_mono m m' c :
  (forall pid, pid ∈ settled m -> pid ∈ settled m') ->
  from_settled B m c -> from_settled B m' c.
Proof. intros Hsub (pid & Hin & Ho). exists pid. auto. Qed.

Lemma task_consistent_mono m m' (t : Task Handle) :
  (length (connects (proc m)) <= length (connects (proc m')))%nat ->
  (forall pid, pid ∈ settled m -> pid ∈ settled m') ->
  match t with
  | Waiting pid => (pid < length (connects (proc m)))%nat
  | Finished c => from_settled B m c
  end ->
  match t with
  | Waiting pid => (pid < length (connects (proc m')))%nat
  | Finished c => from_settled B m' c
  end.
Proof.
  intros Hlen Hsub. destruct t as [pid|c].
  - lia.
  - apply from_settled_mono, Hsub.
Qed.

Lemma consistent_cold u : consistent B u (machine_of cold).
Proof.
  unfold consistent. simpl. repeat split; try constructor; discriminate.
Qed.

Lemma step_consistent u ev m m' :
  u <> EmptyString ->
  consistent B u m -> step B (Some u) ev m = Some m' -> consistent B u m'.
Proof.
  intros Hu (Huri & Hpr & Hconn & Hset & Htasks).
  destruct ev as [|pid|tid]; simpl.
  - unfold connectDB_start.
    destruct (conn (cached (proc m))) as [h|] eqn:Hc.
    + intros E. injection E as <-.
      split; [exact Huri |]. split; [exact Hpr |].
      split; [simpl; rewrite Hc; exact Hconn |].
      split; [exact Hset |]. simpl.
      apply Forall_app. split; [exact Htasks |].
      constructor; [| constructor]. apply Hconn. reflexivity.
    + destruct (promise (cached (proc m))) as [pid|] eqn:Hp.
      * intros E. injection E as <-.
        split; [exact Huri |]. split; [simpl; rewrite Hp; exact Hpr |].
        split; [simpl; rewrite Hc; exact Hconn |].
        split; [exact Hset |]. simpl.
        apply Forall_app. split; [exact Htasks |].
        constructor; [| constructor]. apply Hpr. reflexivity.
      * rewrite (truthy_uri u Hu). simpl.
        intros E'. injection E' as <-. unfold consistent. simpl.
        rewrite length_app. simpl.
        split; [| split; [| split; [| split]]].
        -- apply Forall_app. split; [exact Huri |]. repeat constructor.
        -- intros pid E'. injection E' as <-. lia.
        -- discriminate.
        -- eapply Forall_impl; [exact Hset |]. simpl. intros. lia.
        -- apply Forall_app. split.
           ++ eapply Forall_impl; [exact Htasks |]. intros [pid|c]; simpl.
              ** lia.
              ** intros H. exact H.
           ++ constructor; [| constructor]. lia.
  - destruct (Nat.ltb pid (length (connects (proc m)))) eqn:Hlt;
      [| discriminate].
    destruct (negb (is_settled pid m)); [| discriminate]. simpl.
    intros E. injection E as <-. apply Nat.ltb_lt in Hlt.
    split; [exact Huri |]. split; [exact Hpr |]. simpl.
    split; [| split].
    + intros h Hh. apply Hconn in Hh as (q & Hq & Ho).
      exists q. split; [right; exact Hq | exact Ho].
    + constructor; [exact Hlt | exact Hset].
    + eapply Forall_impl; [exact Htasks |]. intros [q|c]; simpl; [auto |].
      intros (q & Hq & Ho). exists q. split; [right; exact Hq | exact Ho].
  - destruct (tasks m !! tid) as [[pid|c]|] eqn:Hl; try discriminate.
    destruct (is_settled pid m) eqn:Hs; [| discriminate].
    apply is_settled_elem in Hs.
    assert (Hfrom : from_settled B m (connect_outcome B pid))
      by (exists pid; auto).
    destruct (connect_outcome B pid) as [h|e] eqn:Ho; simpl;
      intros E; injection E as <-;
      (split; [exact Huri |]); simpl;
      (split; [| split; [| split; [exact Hset |]]]).
    + exact Hpr.
    + intros h0 E. injection E as <-. exact Hfrom.
    + apply Forall_insert; [exact Htasks | exact Hfrom].
    + discriminate.
    + exact Hconn.
    + apply Forall_insert; [exact Htasks | exact Hfrom].
Qed.

Lemma run_consistent_from u evs : forall m0 m,
  u <> EmptyString ->
  consistent B u m0 -> run B (Some u) evs m0 = Some m -> consistent B u m.
Proof.
  induction evs as [|ev evs IH]; intros m0 m Hu Hm0; simpl.
  - intros E. injection E as <-. exact Hm0.
  - destruct (step B (Some u) ev m0) as [m1|] eqn:Hs; [| discriminate].
    apply IH; [exact Hu |]. eapply step_consistent; eassumption.
Qed.

(** Whatever the schedule, starting from the freshly loaded module: every
    attempt was started with the configured URI and [bufferCommands:
    false]; the promise in the cache and the promises callers wait for
    belong to attempts that were started; the connection in the cache and
    every result a caller received are the outcome of an attempt that had
    settled. *)
Theorem run_consistent u evs m :
  u <> EmptyString ->
  run B (Some u) evs (machine_of cold) = Some m ->
  consistent B u m.
Proof.
  intros Hu Hrun. eapply run_consistent_from; [exact Hu | | exact Hrun].
  apply consistent_cold.
Qed.

(** A suspended caller whose promise belongs to a started attempt can be
    brought to completion. *)
Lemma finish_one uri tid pid m :
  tasks m !! tid = Some (Waiting pid) ->
  (pid < length (connects (proc m)))%nat ->
  exists evs m',
    Forall (fun ev => is_call ev = false) evs /\
    run B uri evs m = Some m' /\
    tasks m' = <[tid := Finished (connect_outcome B pid)]> (tasks m) /\
    connects (proc m') = connects (proc m).
Proof.
  intros Hl Hlt.
  pose proof (connectDB_resume_result (connect_outcome B pid) (proc m)) as Hr.
  pose proof (connectDB_resume_connects (connect_outcome B pid) (proc m))
    as Hk.
  destruct (connectDB_resume (connect_outcome B pid) (proc m)) as [p' c]
    eqn:Hres.
  simpl in Hr, Hk. subst c.
  destruct (is_settled pid m) eqn:Hs.
  - exists [Resume tid]. eexists. split; [repeat constructor |].
    simpl. rewrite Hl, Hs, Hres. split; [reflexivity |]. simpl. auto.
  - exists [Settle pid; Resume tid]. eexists.
    split; [repeat constructor |]. simpl.
    apply Nat.ltb_lt in Hlt. rewrite Hlt, Hs. simpl. rewrite Hl.
    unfold is_settled. simpl. rewrite Nat.eqb_refl. simpl. rewrite Hres.
    split; [reflexivity |]. simpl. auto.
Qed.

Lemma finish_from uri (k : nat) : forall (i : nat) m,
  (i + k)%nat = length (tasks m) ->
  (forall j t, (j < i)%nat -> tasks m !! j = Some t -> exists c, t = Finished c) ->
  Forall (fun t => match t with
                   | Waiting pid => (pid < length (connects (proc m)))%nat
                   | Finished _ => True
                   end) (tasks m) ->
  exists evs m',
    Forall (fun ev => is_call ev = false) evs /\
    run B uri evs m = Some m' /\
    length (tasks m') = length (tasks m) /\
    Forall (fun t => exists c, t = Finished c) (tasks m') /\
    connects (proc m') = connects (proc m).
Proof.
  induction k as [|k IH]; intros i m Hlen Hdone Hwait.
  - exists [], m. split; [constructor |]. split; [reflexivity |].
    split; [reflexivity |]. split; [| reflexivity].
    apply Forall_lookup. intros j t Hj. apply (Hdone j t); [| exact Hj].
    apply lookup_lt_Some in Hj. lia.
  - destruct (tasks m !! i) as [t|] eqn:Hi;
      [| apply lookup_ge_None in Hi; lia].
    destruct t as [pid|c].
    + assert (Hlt : (pid < length (connects (proc m)))%nat).
      { eapply Forall_lookup_1 in Hwait; [| exact Hi]. exact Hwait. }
      destruct (finish_one uri i pid m Hi Hlt)
        as (evs1 & m1 & Hnc1 & Hrun1 & Ht1 & Hc1).
      destruct (IH (S i) m1) as (evs2 & m2 & Hnc2 & Hrun2 & Hl2 & Hf2 & Hc2).
      * rewrite Ht1, length_insert. lia.
      * intros j t Hj. rewrite Ht1.
        destruct (decide (j = i)) as [-> | Hne].
        -- rewrite list_lookup_insert_eq by (eapply lookup_lt_Some, Hi).
           intros E. injection E as <-. eauto.
        -- rewrite list_lookup_insert_ne by congruence.
           apply Hdone. lia.
      * rewrite Ht1, Hc1. apply Forall_insert; [exact Hwait | exact I].
      * exists (evs1 ++ evs2), m2. split; [apply Forall_app; auto |].
        rewrite run_app, Hrun1. split; [exact Hrun2 |].
        rewrite Hl2, Ht1, length_insert, Hc2, Hc1. auto.
    + apply (IH (S i) m); [lia | | exact Hwait].
      intros j t Hj Ht. destruct (decide (j = i)) as [-> | Hne].
      * rewrite Hi in Ht. injection Ht as <-. eauto.
      * apply (Hdone j t); [lia | exact Ht].
Qed.

(** No caller is left behind: in every state the event loop can reach,
    the suspended callers can all be brought to completion, by settling
    and resuming only, without a further connection attempt. *)
Theorem callers_can_finish u evs m :
  u <> EmptyString ->
  run B (Some u) evs (machine_of cold) = Some m ->
  exists evs' m',
    Forall (fun ev => is_call ev = false) evs' /\
    run B (Some u) evs' m = Some m' /\
    length (tasks m') = length (tasks m) /\
    Forall (fun t => exists c, t = Finished c) (tasks m') /\
    connects (proc m') = connects (proc m).
Proof.
  intros Hu Hrun.
  destruct (run_consistent_from u evs _ m Hu (consistent_cold u) Hrun)
    as (_ & _ & _ & _ & Ht).
  apply (finish_from (Some u) (length (tasks m)) 0 m).
  - reflexivity.
  - intros j t Hj. lia.
  - eapply Forall_impl; [exact Ht |]. intros [pid|c]; simpl; auto.
Qed.

End Consistency.

(* ===================================================================== *)
(** ** The two validation messages, and a warm process *)
(* ===================================================================== *)

Section Validation.

Context {Handle Doc : Type}.
Variable doc_slug : Doc -> jsstring.

Implicit Types (B : Backend Handle Doc) (p : Process Handle).
Implicit Types (s : jsstring) (v : JsValue).

(** Which of the two 400 responses is given: the missing-slug one to
    exactly the values that are not a string or are a string of white
    space only (the empty string included), the malformed-slug one to
    exactly the strings with something other than white space in them
    that are not in the pattern's language. *)
Theorem GET_validation_messages B uri v p :
  (snd (GET doc_slug B uri v p) = bad_request missing_message <->
   (forall s, v <> JString s) \/ (exists s, v = JString s /\ blank s = true))
  /\
  (snd (GET doc_slug B uri v p) = bad_request malformed_message <->
   exists s, v = JString s /\ blank s = false /\ ~ matches slugPattern s).
Proof.
  destruct (slug_missing v) eqn:Hm.
  - rewrite (GET_missing doc_slug B uri v p Hm). simpl. split; split.
    + intros _. destruct v as [| |b|n|s|];
        try (left; intros s0; discriminate).
      right. exists s. split; [reflexivity |].
      apply slug_missing_string, Hm.
    + reflexivity.
    + discriminate.
    + intros (s & -> & Hb & _). apply slug_missing_string in Hm. congruence.
  - destruct v as [| |b|n|s|];
      try (rewrite slug_missing_not_string in Hm by discriminate;
           discriminate).
    assert (Hb : blank s = false).
    { destruct (blank s) eqn:E; [| reflexivity].
      apply slug_missing_string in E. congruence. }
    destruct (test slugPattern s) eqn:Ht.
    + apply test_matches in Ht.
      assert (Hst : forall msg,
        snd (GET doc_slug B uri (JString s) p)
        <> bad_request (Doc := Doc) msg).
      { intros msg. rewrite (GET_valid doc_slug B uri s p Ht).
        destruct (await_connectDB B uri (log_call CallConnectDB p))
          as [p1 [h|e]]; [| discriminate].
        destruct (Event_findOne doc_slug B s) as [[d|]|e];
          [destruct (stringify_fault B d) | |]; discriminate. }
      split; split.
      * intros H. apply Hst in H. contradiction.
      * intros [H | (s0 & E & Hb0)]; [exfalso; apply (H s); reflexivity |].
        injection E as <-. congruence.
      * intros H. apply Hst in H. contradiction.
      * intros (s0 & E & _ & Hn). injection E as <-. contradiction.
    + rewrite (GET_malformed doc_slug B uri s p Hm Ht). simpl. split; split.
      * discriminate.
      * intros [H | (s0 & E & Hb0)]; [exfalso; apply (H s); reflexivity |].
        injection E as <-. congruence.
      * intros _. exists s. split; [reflexivity |]. split; [exact Hb |].
        intros H. apply test_matches in H. congruence.
      * reflexivity.
Qed.

Lemma GET_warm B uri v p (h : Handle) :
  conn (cached p) = Some h ->
  cached (fst (GET doc_slug B uri v p)) = cached p /\
  connects (fst (GET doc_slug B uri v p)) = connects p /\
  (status (snd (GET doc_slug B uri v p)) = 500%N ->
   exists s, v = JString s /\
     (query_fault B s <> None \/
      exists d, In d (store B) /\ stringify_fault B d <> None)).
Proof.
  intros Hc. destruct (matches_slug_dec v) as [(s & -> & Hs) | Hv].
  - rewrite (GET_valid doc_slug B uri s p Hs).
    rewrite (await_connectDB_warm B uri (log_call CallConnectDB p) h Hc).
    unfold Event_findOne.
    destruct (query_fault B s) as [e|] eqn:Hq; simpl.
    + split; [reflexivity |]. split; [reflexivity |].
      intros _. exists s. split; [reflexivity |]. left.
      rewrite Hq. discriminate.
    + destruct (find _ (store B)) as [d|] eqn:Hf;
        [destruct (stringify_fault B d) as [e|] eqn:Hj |]; simpl;
        (split; [reflexivity |]); (split; [reflexivity |]);
        try discriminate.
      intros _. exists s. split; [reflexivity |]. right. exists d.
      apply find_some in Hf as [Hin _]. split; [exact Hin |].
      rewrite Hj. discriminate.
  - destruct (GET_not_slug doc_slug B uri v p Hv) as [msg ->]. simpl.
    split; [reflexivity |]. split; [reflexivity | discriminate].
Qed.

(** Once a connection is in the cache it stays there: however many
    requests follow, the cache is not touched and no connection attempt
    is started; and if no query fails and every document of the
    collection can be serialised, none of them is answered with 500. *)
Theorem serve_warm B uri vs p (h : Handle) :
  conn (cached p) = Some h ->
  cached (fst (serve doc_slug B uri vs p)) = cached p /\
  connects (fst (serve doc_slug B uri vs p)) = connects p /\
  ((forall s, query_fault B s = None) ->
   (forall d, In d (store B) -> stringify_fault B d = None) ->
   server_errors (snd (serve doc_slug B uri vs p)) = 0%nat).
Proof.
  revert p. induction vs as [|v vs IH]; intros p Hc; simpl.
  - repeat split.
  - destruct (GET_warm B uri v p h Hc) as (Hcache & Hconn & H500).
    destruct (GET doc_slug B uri v p) as [p1 r]. simpl in Hcache, Hconn, H500.
    destruct (IH p1) as (IHcache & IHconn & IH500);
      [rewrite Hcache; exact Hc |].
    destruct (serve doc_slug B uri vs p1) as [p2 rs]. simpl in *.
    split; [congruence |]. split; [congruence |].
    intros Hq Hj. rewrite server_errors_cons, (IH500 Hq Hj).
    destruct (decide (status r = 500%N)) as [E | E]; [| reflexivity].
    destruct (H500 E) as (s & _ & [Hf | (d & Hin & Hd)]).
    + exfalso. apply Hf, Hq.
    + exfalso. apply Hd, Hj, Hin.
Qed.

End Validation.

(* ===================================================================== *)
(** ** The further properties at work on the sample data *)
(* ===================================================================== *)

Section MoreInstances.

Import Sample.

Lemma uri_set : uri <> EmptyString.
Proof. discriminate. Qed.

Lemma slug_shape_witness :
  test slugPattern (lit "summer-fest-2024") = true /\
  forall t, lit "summer-fest-2024" <> t ++ [45%N].
Proof.
  split; [reflexivity |].
  apply (slug_shape (lit "summer-fest-2024") eq_refl).
Defined.

Lemma GET_200_sound_witness :
  status (snd (get healthy config (JString (lit "react-conf")) cold)) = 200%N /\
  exists d, In d (store healthy) /\ slug d = lit "react-conf".
Proof.
  split; [reflexivity |].
  destruct (GET_200_sound slug healthy config (JString (lit "react-conf"))
              cold eq_refl)
    as (s & d & E & _ & _ & Hin & Hd & _).
  injection E as <-. exists d. split; assumption.
Defined.

Lemma GET_404_sound_witness :
  status (snd (get healthy config (JString (lit "vue-conf")) cold)) = 404%N /\
  forall d, In d (store healthy) -> slug d <> lit "vue-conf".
Proof.
  split; [reflexivity |].
  destruct (GET_404_sound slug healthy config (JString (lit "vue-conf"))
              cold eq_refl)
    as (s & E & _ & _ & Hno & _).
  injection E as <-. exact Hno.
Defined.

Lemma GET_repeat_witness :
  status (snd (get healthy config (JString (lit "react-conf")) cold))
    <> 500%N /\
  snd (get healthy config (JString (lit "react-conf"))
         (fst (get healthy config (JString (lit "react-conf")) cold)))
  = snd (get healthy config (JString (lit "react-conf")) cold).
Proof.
  assert (H : status (snd (get healthy config (JString (lit "react-conf"))
                             cold)) <> 500%N) by discriminate.
  split; [exact H |].
  apply (GET_repeat slug healthy config (JString (lit "react-conf")) cold H).
Defined.


Lemma load_module_reuses_cache_witness :
  exists L,
    load_module config (Some {| conn := Some 0%nat; promise := Some 0%nat |})
      = Normal L /\
    await_connectDB healthy (MONGODB_URI L) (boot L) = (boot L, Normal 0%nat).
Proof.
  destruct (load_module_reuses_cache healthy config
              {| conn := Some 0%nat; promise := Some 0%nat |} 0%nat
              eq_refl eq_refl)
    as (L & H1 & _ & _ & H2).
  exists L. split; assumption.
Defined.

Lemma first_attempt_succeeds_witness :
  exists m,
    run healthy config [Call; Call; Settle 0; Resume 1; Call; Resume 0; Call]
      (machine_of cold) = Some m /\
    (length (connects (proc m)) <= 1)%nat /\
    Forall (fun t => t = Waiting 0 \/ t = Finished (Normal 0%nat)) (tasks m).
Proof.
  eexists. split; [reflexivity |].
  apply (first_attempt_succeeds healthy uri 0%nat
           [Call; Call; Settle 0; Resume 1; Call; Resume 0; Call] _
           uri_set eq_refl eq_refl).
Defined.

Lemma run_consistent_witness :
  exists m,
    run unreachable config [Call; Call; Settle 0; Resume 1; Call]
      (machine_of cold) = Some m /\
    consistent unreachable uri m.
Proof.
  eexists. split; [reflexivity |].
  apply (run_consistent unreachable uri
           [Call; Call; Settle 0; Resume 1; Call] _ uri_set eq_refl).
Defined.

Lemma callers_can_finish_witness :
  exists m evs' m',
    run unreachable config [Call; Call; Call] (machine_of cold) = Some m /\
    run unreachable config evs' m = Some m' /\
    Forall (fun t => exists c, t = Finished c) (tasks m').
Proof.
  eexists.
  destruct (callers_can_finish unreachable uri [Call; Call; Call] _
              uri_set eq_refl)
    as (evs' & m' & _ & Hrun & _ & Hdone & _).
  exists evs', m'. split; [reflexivity |]. split; [exact Hrun | exact Hdone].
Defined.

Lemma serve_warm_witness :
  conn (cached (fst (get healthy config (JString (lit "react-conf")) cold)))
    = Some 0%nat /\
  connects (fst (serve slug healthy config
                   [JString (lit "vue-conf"); JUndefined;
                    JString (lit "summer-fest-2024")]
                   (fst (get healthy config (JString (lit "react-conf"))
                           cold))))
  = connects (fst (get healthy config (JString (lit "react-conf")) cold)).
Proof.
  split; [reflexivity |].
  apply (serve_warm slug healthy config
           [JString (lit "vue-conf"); JUndefined;
            JString (lit "summer-fest-2024")]
           (fst (get healthy config (JString (lit "react-conf")) cold))
           0%nat eq_refl).
Defined.

End MoreInstances.
